(** * A single-table chat store: key design and data-access layer

    Shallow embedding of [src/models/chat-model.ts] (the two entities and
    the templates of their keys) and of the methods of the class [Chats] in
    [src/dal/chats.ts], all but the test helper [clearData], whose deletions
    are started without being awaited; and of the client singleton of
    [src/ddb-client.ts].

    The table is a finite map from (partition key, sort key) to items.  The
    entity layer (ElectroDB over DynamoDB) is not part of the repository; it
    is modelled by the operations the data-access layer calls:
    - [create]  : defaults, validation, then a put guarded by "the key does
                  not exist yet";
    - [get]     : lookup by exact key;
    - [update]  : write without guard (inserts when the key is absent);
    - [patch]   : write guarded by "the key exists";
    - [delete]  : unguarded removal;
    - [query]   : the first page of the items of one partition of the table
                  or of the index [gsi1] that match the key condition,
                  ascending in the sort key, compared byte by byte.  The
                  methods call [go()] once and do not follow the cursor.
    The schema sets no [casing], so every key is the template applied to the
    attributes and then put in lower case.  [update] and [patch] write the
    attributes of the key they are given along with those of [set].
    [validate] accepts a name exactly when the callback of the schema
    returns true.  Clock readings, random identifiers, the lower-casing of
    characters outside ASCII and the length of a page come from an
    environment; a method is a state transformer that may throw.  The store
    is taken to answer every call: a failure of the network or of the service
    is not part of the model. *)

From stdpp Require Import base option list gmap strings pretty sorting.

(** ** Strings

    A string is the UTF-8 encoding of a string of the program: DynamoDB
    orders keys by these bytes. *)

Definition str_le (a b : string) : Prop := String.leb a b = true.
Definition str_lt (a b : string) : Prop := String.ltb a b = true.

Global Instance str_le_dec : RelDecision str_le.
Proof. intros a b. unfold str_le. apply _. Defined.

Global Instance str_lt_dec : RelDecision str_lt.
Proof. intros a b. unfold str_lt. apply _. Defined.

(** [value.length]: the number of UTF-16 code units.  A byte below 128 is
    one character and one unit; a continuation byte adds nothing to the
    character its lead byte started; a lead byte of a two- or three-byte
    sequence is one unit, and one of a four-byte sequence is two (a
    surrogate pair). *)
Definition code_units (a : Ascii.ascii) : nat :=
  let n := Ascii.nat_of_ascii a in
  if n <? 128 then 1 else if n <? 192 then 0 else if n <? 240 then 1 else 2.

Fixpoint utf16_length (s : string) : nat :=
  match s with
  | EmptyString => 0
  | String a s => code_units a + utf16_length s
  end.

Definition is_ascii (a : Ascii.ascii) : bool := Ascii.nat_of_ascii a <? 128.

Definition is_upper (a : Ascii.ascii) : bool :=
  (65 <=? Ascii.nat_of_ascii a) && (Ascii.nat_of_ascii a <=? 90).

Definition is_digit (a : Ascii.ascii) : bool :=
  (48 <=? Ascii.nat_of_ascii a) && (Ascii.nat_of_ascii a <=? 57).

Definition lower_ascii (a : Ascii.ascii) : Ascii.ascii :=
  if is_upper a then Ascii.ascii_of_nat (Ascii.nat_of_ascii a + 32) else a.

(** [key.toLowerCase()].  The characters of ASCII are mapped one by one,
    whatever surrounds them.  From the first character outside ASCII on, the
    result is what the Unicode tables of the runtime give, which may depend on
    the characters before it: [rest] stands for that part. *)
Fixpoint lower_from (rest : string → string → string) (seen s : string) : string :=
  match s with
  | EmptyString => EmptyString
  | String a s' =>
      if is_ascii a
      then String (lower_ascii a)
             (lower_from rest (seen +:+ String a EmptyString) s')
      else rest seen s
  end.

(** The lower case of a string of ASCII characters. *)
Fixpoint lower_string (s : string) : string :=
  match s with
  | EmptyString => EmptyString
  | String a s => String (lower_ascii a) (lower_string s)
  end.

Fixpoint all_ascii (s : string) : bool :=
  match s with
  | EmptyString => true
  | String a s => is_ascii a && all_ascii s
  end.

(** A string of ASCII characters none of which is an upper-case letter, as
    [crypto.randomUUID()] prints. *)
Fixpoint plain (s : string) : bool :=
  match s with
  | EmptyString => true
  | String a s => is_ascii a && negb (is_upper a) && plain s
  end.

(** The format of [toISOString] for the years 0000 to 9999:
    YYYY-MM-DDTHH:mm:ss.sssZ, a [d] of the pattern standing for a digit. *)
Definition digit_mark : Ascii.ascii := Ascii.ascii_of_nat 100.

Fixpoint matches (pattern s : string) : bool :=
  match pattern, s with
  | EmptyString, EmptyString => true
  | String p pattern, String a s =>
      (if Ascii.eqb p digit_mark then is_digit a else Ascii.eqb p a)
      && matches pattern s
  | _, _ => false
  end.

Definition iso_stamp (s : string) : bool := matches "dddd-dd-ddTdd:dd:dd.dddZ" s.

(** ** Entities ([src/models/chat-model.ts]) *)

(** [role: ["user", "assistant"]] *)
Inductive Role := user | assistant.

(** A stored chat.  Only [chatId] is part of the key; a row written by an
    unguarded [update] on an absent key carries none of the other attributes,
    so they are optional in the stored row. *)
Module ChatItem.
Record t := mk {
  chatId : string;
  userId : option string;
  name : option string;
  createdAt : option string;
  updatedAt : option string }.
End ChatItem.

(** A stored message.  Messages are only ever written by [create] and by a
    guarded [patch], so every required attribute is present. *)
Module MessageItem.
Record t := mk {
  chatId : string;
  messageId : string;
  userId : string;
  createdAt : string;
  updatedAt : string;
  content : string;
  reasoningContent : option string;
  role : Role }.
End MessageItem.

Global Instance Role_eq_dec : EqDecision Role.
Proof. solve_decision. Defined.
Global Instance ChatItem_eq_dec : EqDecision ChatItem.t.
Proof. solve_decision. Defined.
Global Instance MessageItem_eq_dec : EqDecision MessageItem.t.
Proof. solve_decision. Defined.

Inductive Item :=
  | ChatRow (c : ChatItem.t)
  | MessageRow (m : MessageItem.t).

Global Instance Item_eq_dec : EqDecision Item.
Proof. solve_decision. Defined.

(** ** The environment *)

(** What the program reads from outside: the [n]-th evaluation of
    [new Date().toISOString()]; the [n]-th result of [crypto.randomUUID()];
    whether the entity layer runs the [set] callback of [updatedAt] on a
    write that does not name that attribute (the schema's comment says it
    does, "on every modification to the item"; the schema declares no
    [watch]; the development holds for either answer); the lower-casing of
    a string from its first character outside ASCII on, given what precedes
    it; and the number of leading items of a query's matches that the store
    returns in one page (DynamoDB stops a page at 1 MB of data). *)
Record Env := {
  now : nat → string;
  randomUUID : nat → string;
  watch_all : bool;
  lower_rest : string → string → string;
  page : list Item → nat }.

Definition toLowerCase (E : Env) (s : string) : string :=
  lower_from (lower_rest E) EmptyString s.

(** *** Key templates *)

(** [template: "CHAT#${chatId}"] and [template: "METADATA"] *)
Definition chat_pk (E : Env) (chatId : string) : string :=
  toLowerCase E ("CHAT#" +:+ chatId).
Definition chat_sk (E : Env) : string := toLowerCase E "METADATA".

(** [template: "CHAT#${chatId}"] and [template: "MSG#${createdAt}#${messageId}"] *)
Definition message_pk (E : Env) (chatId : string) : string :=
  toLowerCase E ("CHAT#" +:+ chatId).
Definition message_sk (E : Env) (createdAt messageId : string) : string :=
  toLowerCase E ("MSG#" +:+ createdAt +:+ "#" +:+ messageId).

(** The sort-key template of a message up to its first attribute: what the
    sort key of a query for the messages of a chat begins with. *)
Definition message_sk_begins (E : Env) : string := toLowerCase E "MSG#".

(** [validate: (value) => value.length > 0 && value.length <= 100] *)
Definition validate_name (value : string) : bool :=
  (0 <? utf16_length value) && (utf16_length value <=? 100).

(** ** The table *)

Abbreviation Key := (string * string)%type.
Abbreviation Table := (gmap (string * string) Item).

(** The key an item is stored under: the templates applied to its attributes. *)
Definition item_key (E : Env) (it : Item) : Key :=
  match it with
  | ChatRow c => (chat_pk E (ChatItem.chatId c), chat_sk E)
  | MessageRow m =>
      (message_pk E (MessageItem.chatId m),
       message_sk E (MessageItem.createdAt m) (MessageItem.messageId m))
  end.

(** Every row sits at the key computed from its own attributes. *)
Definition wf_table (E : Env) (t : Table) : Prop :=
  map_Forall (λ k it, k = item_key E it) t.

(** The rows of one partition, each with its sort key, ascending in the sort
    key. *)
Definition sk_le (x y : string * Item) : Prop := str_le x.1 y.1.

Global Instance sk_le_dec : RelDecision sk_le.
Proof. intros x y. unfold sk_le. apply _. Defined.

Definition partition (t : Table) (pk : string) : gmap string Item :=
  default ∅ (map_curry (M1:=gmap string) (M2:=gmap string) t !! pk).

Definition partition_rows (t : Table) (pk : string) : list (string * Item) :=
  merge_sort sk_le (map_to_list (partition t pk)).

(** A message row of a partition: a row of the message entity whose sort key
    begins as the template does. *)
Definition as_message (E : Env) (row : string * Item) : option MessageItem.t :=
  match row.2 with
  | MessageRow m =>
      if String.prefix (message_sk_begins E) row.1 then Some m else None
  | ChatRow _ => None
  end.

(** All the messages stored for a chat, in the order of their sort keys. *)
Definition stored_messages (E : Env) (t : Table) (chatId : string)
    : list MessageItem.t :=
  omap (as_message E) (partition_rows t (message_pk E chatId)).

(** [messageEntity.query.primary({ chatId }).go()]: the rows of the partition
    that match the key condition (the sort key begins as the template does),
    cut to the first page, and of these the rows of the message entity. *)
Definition matching_rows (E : Env) (t : Table) (chatId : string)
    : list (string * Item) :=
  filter (λ row, String.prefix (message_sk_begins E) row.1 = true)
    (partition_rows t (message_pk E chatId)).

Definition first_page {A} (E : Env) (rows : list (A * Item)) : list (A * Item) :=
  take (page E rows.*2) rows.

Definition message_page (E : Env) (t : Table) (chatId : string)
    : list MessageItem.t :=
  omap (as_message E) (first_page E (matching_rows E t chatId)).

(** [chatEntity.get({ chatId })]: the chat row at the metadata key. *)
Definition stored_chat (E : Env) (t : Table) (chatId : string)
    : option ChatItem.t :=
  match t !! (chat_pk E chatId, chat_sk E) with
  | Some (ChatRow c) => Some c
  | _ => None
  end.

(** ** Errors and the monad of store operations *)

(** Errors raised by the entity layer. *)
Inductive StoreError :=
  | ConditionalCheckFailed            (* the guard of a create or patch failed *)
  | InvalidValue (attribute : string). (* an attribute's [validate] rejected *)

(** Everything a [Chats] method can throw. *)
Inductive Error :=
  | UserIdRequired
  | ChatNotFound (chatId : string)
  | MessageNotFound (messageId : string)
  | MessageNotFoundOrDenied (messageId : string)
  | Store (e : StoreError).

(** The text of the [Error] objects the data-access layer constructs. *)
Definition error_message (e : Error) : string :=
  match e with
  | UserIdRequired => "userId is required"
  | ChatNotFound chatId =>
      "Chat with ID " +:+ chatId +:+ " not found or access denied"
  | MessageNotFound messageId =>
      "Message with ID " +:+ messageId +:+ " not found"
  | MessageNotFoundOrDenied messageId =>
      "Message with ID " +:+ messageId +:+ " not found or access denied"
  | Store ConditionalCheckFailed => "The conditional request failed"
  | Store (InvalidValue attribute) =>
      "Invalid value provided for " +:+ attribute
  end.

(** The errors that report a missing or inaccessible chat or message. *)
Definition is_NotFound (e : Error) : bool :=
  match e with
  | ChatNotFound _ | MessageNotFound _ | MessageNotFoundOrDenied _ => true
  | UserIdRequired | Store _ => false
  end.

Inductive Outcome (A : Type) :=
  | Ok (a : A)
  | Throw (e : Error).
Arguments Ok {A} a.
Arguments Throw {A} e.

Record World := {
  table : Table;
  ticks : nat;   (* clock readings taken so far *)
  draws : nat }. (* identifiers drawn so far *)

(** A method runs in an environment, from a world, to an outcome and a world.
    A thrown error keeps the writes made before it. *)
Definition M (A : Type) : Type := Env → World → Outcome A * World.

Global Instance M_ret : MRet M := λ A a _ w, (Ok a, w).

Global Instance M_bind : MBind M := λ A B f m E w,
  match m E w with
  | (Ok a, w') => f a E w'
  | (Throw e, w') => (Throw e, w')
  end.

Definition run {A} (m : M A) (E : Env) (w : World) : Outcome A * World := m E w.

Definition throw {A} (e : Error) : M A := λ _ w, (Throw e, w).

Definition tick (w : World) : World :=
  {| table := table w; ticks := S (ticks w); draws := draws w |}.
Definition draw (w : World) : World :=
  {| table := table w; ticks := ticks w; draws := S (draws w) |}.
Definition set_table (t : Table) (w : World) : World :=
  {| table := t; ticks := ticks w; draws := draws w |}.

Definition new_Date_toISOString : M string := λ E w,
  (Ok (now E (ticks w)), tick w).

Definition crypto_randomUUID : M string := λ E w,
  (Ok (randomUUID E (draws w)), draw w).

Definition env : M Env := λ E w, (Ok E, w).

Definition read_table : M Table := λ _ w, (Ok (table w), w).

Definition write_table (t : Table) : M unit := λ _ w, (Ok (), set_table t w).

(** [for (const x of xs) { await f(x) }] *)
Fixpoint for_of {A} (xs : list A) (f : A → M unit) : M unit :=
  match xs with
  | [] => mret ()
  | x :: xs => f x;; for_of xs f
  end.

(** ** The entity layer *)

(** The stamp a write puts on [updatedAt] when it does not name it. *)
Definition updatedAt_setter : M (option string) :=
  E ← env;
  if watch_all E then t ← new_Date_toISOString; mret (Some t) else mret None.

Definition stamped (stamp old : option string) : option string :=
  match stamp with Some t => Some t | None => old end.

Definition check_name (name : option string) : M unit :=
  match name with
  | Some n => if validate_name n then mret () else throw (Store (InvalidValue "name"))
  | None => mret ()
  end.

(** [chatEntity.create({ userId, name }).go()]: defaults in attribute order,
    then the [set] callback of [updatedAt], then a put guarded by the absence
    of the key. *)
Definition chat_create (userId name : string) : M ChatItem.t :=
  chatId ← crypto_randomUUID;
  check_name (Some name);;
  createdAt ← new_Date_toISOString;
  new_Date_toISOString;;
  updatedAt ← new_Date_toISOString;
  let c := ChatItem.mk chatId (Some userId) (Some name)
             (Some createdAt) (Some updatedAt) in
  E ← env;
  t ← read_table;
  match t !! item_key E (ChatRow c) with
  | Some _ => throw (Store ConditionalCheckFailed)
  | None => write_table (<[item_key E (ChatRow c) := ChatRow c]> t);; mret c
  end.

(** [chatEntity.get({ chatId }).go()] *)
Definition chat_get (chatId : string) : M (option ChatItem.t) :=
  E ← env; t ← read_table; mret (stored_chat E t chatId).

(** [chatEntity.update({ chatId }).set(...)] and
    [chatEntity.patch({ chatId }).set(...)], returning the new row.  [name] is
    the optional [{ name }] of the [set]; [guarded] tells patch from update.
    The write sets [chatId] to the one of the key it was given. *)
Definition chat_set (chatId : string) (name stamp : option string)
    (c : ChatItem.t) : ChatItem.t :=
  ChatItem.mk chatId (ChatItem.userId c)
    (stamped name (ChatItem.name c)) (ChatItem.createdAt c)
    (stamped stamp (ChatItem.updatedAt c)).

Definition chat_write (guarded : bool) (chatId : string)
    (name : option string) : M ChatItem.t :=
  check_name name;;
  stamp ← updatedAt_setter;
  E ← env;
  t ← read_table;
  match stored_chat E t chatId with
  | Some c =>
      let c' := chat_set chatId name stamp c in
      write_table (<[(chat_pk E chatId, chat_sk E) := ChatRow c']> t);; mret c'
  | None =>
      if guarded then throw (Store ConditionalCheckFailed)
      else
        let c' := ChatItem.mk chatId None name None stamp in
        write_table (<[(chat_pk E chatId, chat_sk E) := ChatRow c']> t);; mret c'
  end.

Definition chat_update := chat_write false.
Definition chat_patch := chat_write true.

(** [chatEntity.delete({ chatId }).go()] *)
Definition chat_delete (chatId : string) : M unit :=
  E ← env; t ← read_table; write_table (delete (chat_pk E chatId, chat_sk E) t).

(** [messageEntity.create({ chatId, userId, content, role, reasoningContent }).go()] *)
Definition message_create (chatId userId content : string) (role : Role)
    (reasoningContent : option string) : M MessageItem.t :=
  messageId ← crypto_randomUUID;
  createdAt ← new_Date_toISOString;
  new_Date_toISOString;;
  updatedAt ← new_Date_toISOString;
  let m := MessageItem.mk chatId messageId userId createdAt updatedAt
             content reasoningContent role in
  E ← env;
  t ← read_table;
  match t !! item_key E (MessageRow m) with
  | Some _ => throw (Store ConditionalCheckFailed)
  | None => write_table (<[item_key E (MessageRow m) := MessageRow m]> t);; mret m
  end.

(** [messageEntity.query.primary({ chatId }).go()] *)
Definition message_query (chatId : string) : M (list MessageItem.t) :=
  E ← env; t ← read_table; mret (message_page E t chatId).

(** [messageEntity.patch({ chatId, createdAt, messageId })
       .set({ content, ...(reasoningContent !== undefined && { reasoningContent }) })
       .go({ response: "all_new" })].  The write sets the three attributes of
    the key to the ones it was given. *)
Definition message_set (chatId createdAt messageId content : string)
    (reasoningContent stamp : option string) (m : MessageItem.t)
    : MessageItem.t :=
  MessageItem.mk chatId messageId
    (MessageItem.userId m) createdAt
    (default (MessageItem.updatedAt m) stamp)
    content
    (stamped reasoningContent (MessageItem.reasoningContent m))
    (MessageItem.role m).

Definition message_patch (chatId createdAt messageId content : string)
    (reasoningContent : option string) : M MessageItem.t :=
  stamp ← updatedAt_setter;
  E ← env;
  t ← read_table;
  match t !! (message_pk E chatId, message_sk E createdAt messageId) with
  | Some (MessageRow m) =>
      let m' := message_set chatId createdAt messageId content
                  reasoningContent stamp m in
      write_table
        (<[(message_pk E chatId, message_sk E createdAt messageId)
           := MessageRow m']> t);;
      mret m'
  | _ => throw (Store ConditionalCheckFailed)
  end.

(** [messageEntity.delete({ chatId, createdAt, messageId }).go()] *)
Definition message_delete (chatId createdAt messageId : string) : M unit :=
  E ← env;
  t ← read_table;
  write_table (delete (message_pk E chatId, message_sk E createdAt messageId) t).

(** ** The data-access layer ([src/dal/chats.ts]) *)

(** [if (!userId) throw new Error("userId is required")] *)
Definition require_userId (userId : string) : M unit :=
  if String.eqb userId EmptyString then throw UserIdRequired else mret ().

Definition createChat (userId name : string) : M ChatItem.t :=
  require_userId userId;;
  chat_create userId name.

(** [chat?.userId === userId ? chat : null] *)
Definition owned_by (userId : string) (chat : option ChatItem.t)
    : option ChatItem.t :=
  match chat with
  | Some c => if decide (ChatItem.userId c = Some userId) then Some c else None
  | None => None
  end.

Definition getChatForUser (chatId userId : string) : M (option ChatItem.t) :=
  require_userId userId;;
  chat ← chat_get chatId;
  mret (owned_by userId chat).

Definition createMessage (chatId userId content : string) (role : Role)
    (reasoningContent : option string) : M MessageItem.t :=
  require_userId userId;;
  chat ← getChatForUser chatId userId;
  match chat with
  | None => throw (ChatNotFound chatId)
  | Some _ =>
      message ← message_create chatId userId content role reasoningContent;
      chat_update chatId None;;
      mret message
  end.

Definition getMessagesForChat (chatId userId : string) : M (list MessageItem.t) :=
  require_userId userId;;
  chat ← getChatForUser chatId userId;
  match chat with
  | None => mret []
  | Some _ => message_query chatId
  end.

Definition updateChatName (chatId userId name : string) : M ChatItem.t :=
  require_userId userId;;
  chat ← getChatForUser chatId userId;
  match chat with
  | None => throw (ChatNotFound chatId)
  | Some _ => chat_patch chatId (Some name)
  end.

(** [messages.data.find((m) => m.messageId === messageId)] *)
Definition find_message (messageId : string) (messages : list MessageItem.t)
    : option MessageItem.t :=
  List.find (λ m, String.eqb (MessageItem.messageId m) messageId) messages.

Definition updateMessage (chatId messageId userId content : string)
    (reasoningContent : option string) : M MessageItem.t :=
  require_userId userId;;
  chat ← getChatForUser chatId userId;
  match chat with
  | None => throw (ChatNotFound chatId)
  | Some _ =>
      messages ← message_query chatId;
      match find_message messageId messages with
      | None => throw (MessageNotFound messageId)
      | Some message =>
          updatedMessage ← message_patch chatId (MessageItem.createdAt message)
                             messageId content reasoningContent;
          chat_update chatId None;;
          mret updatedMessage
      end
  end.

Definition deleteChat (chatId userId : string) : M bool :=
  require_userId userId;;
  chat ← getChatForUser chatId userId;
  match chat with
  | None => mret false
  | Some _ =>
      messages ← message_query chatId;
      for_of messages (λ message,
        message_delete chatId (MessageItem.createdAt message)
          (MessageItem.messageId message));;
      chat_delete chatId;;
      mret true
  end.

Definition deleteMessage (chatId messageId userId : string) : M bool :=
  require_userId userId;;
  messages ← message_query chatId;
  match find_message messageId messages with
  | None => throw (MessageNotFoundOrDenied messageId)
  | Some message =>
      if negb (String.eqb (MessageItem.userId message) userId)
      then throw (MessageNotFoundOrDenied messageId)
      else
        message_delete chatId (MessageItem.createdAt message) messageId;;
        chat_patch chatId None;;
        mret true
  end.

(** ** The listing by owner *)

(** The secondary index [gsi1] of the chat entity:
    [template: "USER#${userId}"] and [template: "CHAT#${updatedAt}"]. *)
Definition chat_gsi1pk (E : Env) (userId : string) : string :=
  toLowerCase E ("USER#" +:+ userId).
Definition chat_gsi1sk (E : Env) (updatedAt : string) : string :=
  toLowerCase E ("CHAT#" +:+ updatedAt).

(** The index keys of a chat row, kept in step with its attributes.  A row
    that lacks [userId] or [updatedAt] has no index keys and is not in the
    index. *)
Definition gsi1_keys (E : Env) (c : ChatItem.t) : option (string * string) :=
  match ChatItem.userId c, ChatItem.updatedAt c with
  | Some u, Some t => Some (chat_gsi1pk E u, chat_gsi1sk E t)
  | _, _ => None
  end.

Definition in_gsi1 (E : Env) (pk : string) (it : Item)
    : option (string * Item) :=
  match it with
  | ChatRow c =>
      match gsi1_keys E c with
      | Some (p, s) => if decide (p = pk) then Some (s, it) else None
      | None => None
      end
  | MessageRow _ => None
  end.

(** The chats of one index partition, ascending in the index sort key.  The
    store does not say in which order rows of equal sort key come; the
    statements below do not depend on the one taken here. *)
Definition gsi1_rows (E : Env) (t : Table) (pk : string) : list (string * Item) :=
  merge_sort sk_le (omap (in_gsi1 E pk) (map_to_list t).*2).

Definition as_chat (row : string * Item) : option ChatItem.t :=
  match row.2 with
  | ChatRow c => Some c
  | MessageRow _ => None
  end.

(** All the chats of the index partition of a user. *)
Definition listed_chats (E : Env) (t : Table) (userId : string)
    : list ChatItem.t :=
  omap as_chat (gsi1_rows E t (chat_gsi1pk E userId)).

(** [chatEntity.query.byUser({ userId }).go()]: the first page of them. *)
Definition chat_page (E : Env) (t : Table) (userId : string)
    : list ChatItem.t :=
  omap as_chat (first_page E (gsi1_rows E t (chat_gsi1pk E userId))).

Definition chat_query_byUser (userId : string) : M (list ChatItem.t) :=
  E ← env; t ← read_table; mret (chat_page E t userId).

Definition getAllChatsForUser (userId : string) : M (list ChatItem.t) :=
  require_userId userId;;
  chat_query_byUser userId.

(** ** The client singleton ([src/ddb-client.ts])

    The client is an object of the SDK; it is identified here by the
    configuration it was constructed with.  [process.env] is a finite map. *)
Module DdbClient.
Record DynamoDBClientConfig := mkConfig {
  region : string;
  endpoint : option string }.

Record DynamoDBClient := mkClient { config : DynamoDBClientConfig }.

(** The value of an environment variable when it is truthy: set and not the
    empty string. *)
Definition truthy (v : option string) : option string :=
  match v with
  | Some s => if String.eqb s EmptyString then None else Some s
  | None => None
  end.

Definition getConfig (env : gmap string string) : DynamoDBClientConfig :=
  {| region := default "us-east-1" (truthy (env !! "AWS_REGION"));
     endpoint := truthy (env !! "LOCALSTACK_ENDPOINT") |}.

(** [getDDBClient()] with the module variable [clientInstance] passed in and
    out. *)
Definition getDDBClient (env : gmap string string)
    (clientInstance : option DynamoDBClient)
    : DynamoDBClient * option DynamoDBClient :=
  match clientInstance with
  | None => let c := mkClient (getConfig env) in (c, Some c)
  | Some c => (c, Some c)
  end.

(** Successive calls, each under its own environment. *)
Fixpoint calls (envs : list (gmap string string))
    (clientInstance : option DynamoDBClient) : list DynamoDBClient :=
  match envs with
  | [] => []
  | env :: envs =>
      (getDDBClient env clientInstance).1
      :: calls envs (getDDBClient env clientInstance).2
  end.
End DdbClient.

(** ** Vocabulary for the statements *)

(** A chat that is absent, or stored under another owner, is not visible.
    Absent means that no chat row sits at the key of [chatId]. *)
Definition hidden_from (E : Env) (t : Table) (chatId userId : string) : Prop :=
  stored_chat E t chatId = None ∨
  ∃ c, stored_chat E t chatId = Some c ∧ ChatItem.userId c ≠ Some userId.

(** Some stored chat carries exactly this [chatId]. *)
Definition chat_exists (t : Table) (chatId : string) : Prop :=
  ∃ k c, t !! k = Some (ChatRow c) ∧ ChatItem.chatId c = chatId.

(** The [chatId]s of the stored chats. *)
Definition chat_ids (t : Table) : list string :=
  omap (λ it, match it with
              | ChatRow c => Some (ChatItem.chatId c)
              | MessageRow _ => None
              end) (map_to_list t).*2.

(** The stamp the [updatedAt] setter yields from a world. *)
Definition stamp_of (E : Env) (w : World) : option string :=
  if watch_all E then Some (now E (ticks w)) else None.

(** The world after the setter: one more clock reading if it ran. *)
Definition after_stamp (E : Env) (w : World) : World :=
  if watch_all E then tick w else w.

(** Strict order of the rows of a range query, by sort key. *)
Definition sk_lt (x y : string * Item) : Prop := str_lt x.1 y.1.

(** The key [deleteChat] computes for a message it got from the query. *)
Definition message_key_in (E : Env) (chatId : string) (m : MessageItem.t) : Key :=
  (message_pk E chatId,
   message_sk E (MessageItem.createdAt m) (MessageItem.messageId m)).

Definition delete_messages (E : Env) (chatId : string) (ms : list MessageItem.t)
    (t : Table) : Table :=
  foldl (λ t m, delete (message_key_in E chatId m) t) t ms.

(** The messages of a chat fit the first page of the query, and the chats of
    a user fit the first page of the listing. *)
Definition fits_page (E : Env) (t : Table) (chatId : string) : Prop :=
  length (matching_rows E t chatId) ≤ page E (matching_rows E t chatId).*2.

Definition listing_fits (E : Env) (t : Table) (userId : string) : Prop :=
  length (gsi1_rows E t (chat_gsi1pk E userId))
  ≤ page E (gsi1_rows E t (chat_gsi1pk E userId)).*2.

(** Successive clock readings never go back (compared as strings, which for
    ISO-8601 timestamps of one width is chronological order). *)
Definition clock_monotone (E : Env) : Prop :=
  ∀ i j, i ≤ j → str_le (now E i) (now E j).

(** Chronological order of messages: by [createdAt], then by [messageId]
    among equal timestamps. *)
Definition chronological (m1 m2 : MessageItem.t) : Prop :=
  str_lt (MessageItem.createdAt m1) (MessageItem.createdAt m2) ∨
  (MessageItem.createdAt m1 = MessageItem.createdAt m2 ∧
   str_lt (MessageItem.messageId m1) (MessageItem.messageId m2)).

(** A message as a range query returns it: its sort key and its row. *)
Definition message_entry (E : Env) (m : MessageItem.t) : string * Item :=
  (message_sk E (MessageItem.createdAt m) (MessageItem.messageId m),
   MessageRow m).

(** The timestamps have the format of [toISOString] and the identifiers are
    in lower case, as the defaults of the schema produce them. *)
Definition generated (m : MessageItem.t) : Prop :=
  iso_stamp (MessageItem.createdAt m) = true ∧
  plain (MessageItem.messageId m) = true.

(** Order of the listing by owner: ascending in [updatedAt]. *)
Definition not_updated_after (c1 c2 : ChatItem.t) : Prop :=
  ∃ t1 t2, ChatItem.updatedAt c1 = Some t1 ∧ ChatItem.updatedAt c2 = Some t2 ∧
           str_le t1 t2.

(** ** Worlds the data-access layer can produce *)

(** A timestamp a row carries is a clock reading already taken. *)
Definition good_row (E : Env) (n : nat) (row : Item) : Prop :=
  match row with
  | ChatRow c => ∀ u, ChatItem.updatedAt c = Some u → ∃ i, i < n ∧ u = now E i
  | MessageRow m => ∃ i, i < n ∧ MessageItem.createdAt m = now E i
  end.

Definition consistent (E : Env) (w : World) : Prop :=
  wf_table E (table w) ∧ map_Forall (λ _ row, good_row E (ticks w) row) (table w).

Definition preserves {A} (m : M A) : Prop :=
  ∀ E w, consistent E w → consistent E (run m E w).2.

(** The calls that can write. *)
Inductive Call :=
  | CreateChat (userId name : string)
  | CreateMessage (chatId userId content : string) (role : Role)
      (reasoningContent : option string)
  | UpdateChatName (chatId userId name : string)
  | UpdateMessage (chatId messageId userId content : string)
      (reasoningContent : option string)
  | DeleteChat (chatId userId : string)
  | DeleteMessage (chatId messageId userId : string).

Definition step (E : Env) (call : Call) (w : World) : World :=
  match call with
  | CreateChat userId name => (run (createChat userId name) E w).2
  | CreateMessage chatId userId content role reasoningContent =>
      (run (createMessage chatId userId content role reasoningContent) E w).2
  | UpdateChatName chatId userId name =>
      (run (updateChatName chatId userId name) E w).2
  | UpdateMessage chatId messageId userId content reasoningContent =>
      (run (updateMessage chatId messageId userId content reasoningContent) E w).2
  | DeleteChat chatId userId => (run (deleteChat chatId userId) E w).2
  | DeleteMessage chatId messageId userId =>
      (run (deleteMessage chatId messageId userId) E w).2
  end.

Definition empty_world : World := {| table := ∅; ticks := 0; draws := 0 |}.

Inductive reachable (E : Env) : World → Prop :=
  | reachable_empty : reachable E empty_world
  | reachable_step w call : reachable E w → reachable E (step E call w).

Global Instance wf_table_dec (E : Env) (t : Table) : Decision (wf_table E t).
Proof. unfold wf_table. apply _. Defined.

(** The stamp a touch puts on the parent chat: none when the setter does not
    run, otherwise a clock reading taken during the call. *)
Definition touch_stamp (E : Env) (w : World) (stamp : option string) : Prop :=
  stamp = None ∨ ∃ i, ticks w ≤ i ∧ stamp = Some (now E i).

(** The chat a call is about: the one named by [chatId], or for [createChat]
    the one whose identifier is about to be drawn. *)
Definition target (E : Env) (w : World) (call : Call) : string :=
  match call with
  | CreateChat _ _ => randomUUID E (draws w)
  | CreateMessage chatId _ _ _ _ => chatId
  | UpdateChatName chatId _ _ => chatId
  | UpdateMessage chatId _ _ _ _ => chatId
  | DeleteChat chatId _ => chatId
  | DeleteMessage chatId _ _ => chatId
  end.

(** A chat row as [createChat] writes it: a non-empty owner, a name the
    schema accepts, and both timestamps. *)
Definition complete_chat (c : ChatItem.t) : Prop :=
  (∃ u, ChatItem.userId c = Some u ∧ u ≠ EmptyString) ∧
  (∃ n, ChatItem.name c = Some n ∧ 1 ≤ utf16_length n ≤ 100) ∧
  is_Some (ChatItem.createdAt c) ∧
  is_Some (ChatItem.updatedAt c).

(** Every row sits in the partition of a chat identifier drawn before. *)
Definition drawn_partitions (E : Env) (w : World) : Prop :=
  ∀ k it, table w !! k = Some it →
          ∃ i, i < draws w ∧ k.1 = chat_pk E (randomUUID E i).

(** The identifier about to be drawn gives a key that none of those drawn
    before gives: it is new, also when case is disregarded. *)
Definition next_id_fresh (E : Env) (w : World) : Prop :=
  ∀ i, i < draws w →
       chat_pk E (randomUUID E i) ≠ chat_pk E (randomUUID E (draws w)).

(** Message identifiers are identifiers already drawn, and no two message rows
    carry the same one. *)
Definition ids_ok (E : Env) (d : nat) (t : Table) : Prop :=
  (∀ k m, t !! k = Some (MessageRow m) →
          ∃ i, i < d ∧ MessageItem.messageId m = randomUUID E i) ∧
  (∀ k1 k2 m1 m2,
     t !! k1 = Some (MessageRow m1) → t !! k2 = Some (MessageRow m2) →
     MessageItem.messageId m1 = MessageItem.messageId m2 → k1 = k2).

(** ** Concrete runs, used to exercise the statements

    The clock moves one millisecond every few readings; identifiers are drawn
    in a fixed order.  The second message is created in the same millisecond
    as the first and draws the smaller identifier.  Characters outside ASCII
    do not occur, and every query result fits its page. *)

Definition readings : list string :=
  [ "2024-05-01T12:00:00.000Z"; "2024-05-01T12:00:00.001Z";
    "2024-05-01T12:00:00.001Z"; "2024-05-01T12:00:00.002Z";
    "2024-05-01T12:00:00.002Z"; "2024-05-01T12:00:00.002Z";
    "2024-05-01T12:00:00.002Z"; "2024-05-01T12:00:00.002Z";
    "2024-05-01T12:00:00.003Z"; "2024-05-01T12:00:00.003Z";
    "2024-05-01T12:00:00.004Z"; "2024-05-01T12:00:00.005Z";
    "2024-05-01T12:00:00.005Z"; "2024-05-01T12:00:00.006Z" ].

Definition last_reading : string := "2024-05-01T12:00:01.000Z".

Definition chat_id : string := "c-1f0e".
Definition first_id : string := "m-9a3c".
Definition second_id : string := "m-27d1".
Definition third_id : string := "m-55b0".

Definition E1 : Env := {|
  now := λ n, nth n readings last_reading;
  randomUUID := λ n, nth n [chat_id; first_id; second_id; third_id] "m-ffff";
  watch_all := true;
  lower_rest := λ _ s, s;
  page := λ rows, length rows |}.

(** Alice creates a chat and two messages. *)
Definition w1 : World := step E1 (CreateChat "alice" "test-chat") empty_world.
Definition w2 : World :=
  step E1 (CreateMessage chat_id "alice" "hello" user None) w1.
Definition w3 : World :=
  step E1 (CreateMessage chat_id "alice" "hi there" assistant (Some "greeting")) w2.

(** Another writer of the table stores a reply under the sender "assistant"
    in Alice's chat, through the entity layer. *)
Definition w4 : World :=
  (run (message_create chat_id "assistant" "I can help" assistant None) E1 w3).2.

(** The same clock and identifiers with a setter that does not run on a
    write that leaves [updatedAt] out. *)
Definition E0 : Env := {|
  now := now E1;
  randomUUID := randomUUID E1;
  watch_all := false;
  lower_rest := lower_rest E1;
  page := page E1 |}.

(** The same run where the setter does not run. *)
Definition u1 : World := step E0 (CreateChat "alice" "test-chat") empty_world.
Definition u2 : World :=
  step E0 (CreateMessage chat_id "alice" "hello" user None) u1.
Definition u3 : World :=
  step E0 (CreateMessage chat_id "alice" "hi there" assistant (Some "greeting")) u2.

Definition chat_in_u3 : ChatItem.t :=
  ChatItem.mk chat_id (Some "alice") (Some "test-chat")
    (Some "2024-05-01T12:00:00.000Z") (Some "2024-05-01T12:00:00.001Z").

(** Another writer of the table stores a reply under the sender "assistant"
    in Alice's chat, through the entity layer. *)
Definition u4 : World :=
  (run (message_create chat_id "assistant" "I can help" assistant None) E0 u3).2.

Definition reply_in_u4 : MessageItem.t :=
  MessageItem.mk chat_id third_id "assistant"
    "2024-05-01T12:00:00.003Z" "2024-05-01T12:00:00.005Z" "I can help"
    None assistant.

(** Bob creates a chat of his own after Alice's two messages. *)
Definition u5 : World := step E0 (CreateChat "bob" "bobs-chat") u3.

Definition chat_of_bob_in_u5 : ChatItem.t :=
  ChatItem.mk third_id (Some "bob") (Some "bobs-chat")
    (Some "2024-05-01T12:00:00.003Z") (Some "2024-05-01T12:00:00.005Z").

(** A chat whose owner is called "assistant", with one message. *)
Definition ub1 : World := step E0 (CreateChat "assistant" "notes") empty_world.
Definition ub2 : World :=
  step E0 (CreateMessage chat_id "assistant" "hello" assistant None) ub1.

(** The metadata row of Alice's chat is removed while its first message
    remains (a cascade interrupted after its last step was issued first). *)
Definition u_orphans : World := (run (chat_delete chat_id) E0 u2).2.

Definition chat_in_w1 : ChatItem.t :=
  ChatItem.mk chat_id (Some "alice") (Some "test-chat")
    (Some "2024-05-01T12:00:00.000Z") (Some "2024-05-01T12:00:00.001Z").

Definition chat_in_w3 : ChatItem.t :=
  ChatItem.mk chat_id (Some "alice") (Some "test-chat")
    (Some "2024-05-01T12:00:00.000Z") (Some "2024-05-01T12:00:00.004Z").

Definition first_message : MessageItem.t :=
  MessageItem.mk chat_id first_id "alice"
    "2024-05-01T12:00:00.002Z" "2024-05-01T12:00:00.002Z" "hello" None user.

Definition second_message : MessageItem.t :=
  MessageItem.mk chat_id second_id "alice"
    "2024-05-01T12:00:00.002Z" "2024-05-01T12:00:00.003Z" "hi there"
    (Some "greeting") assistant.

Definition third_message : MessageItem.t :=
  MessageItem.mk chat_id third_id "assistant"
    "2024-05-01T12:00:00.005Z" "2024-05-01T12:00:00.006Z" "I can help"
    None assistant.

(** Bob creates a chat of his own after Alice's two messages. *)
Definition w5 : World := step E1 (CreateChat "bob" "bobs-chat") w3.

Definition chat_in_w2 : ChatItem.t :=
  ChatItem.mk chat_id (Some "alice") (Some "test-chat")
    (Some "2024-05-01T12:00:00.000Z") (Some "2024-05-01T12:00:00.002Z").

Definition chat_of_bob : ChatItem.t :=
  ChatItem.mk third_id (Some "bob") (Some "bobs-chat")
    (Some "2024-05-01T12:00:00.005Z") (Some "2024-05-01T12:00:00.006Z").

(** The same clock with a generator that numbers its identifiers. *)
Definition E2 : Env := {|
  now := now E1;
  randomUUID := λ n, "id-" +:+ pretty n;
  watch_all := true;
  lower_rest := lower_rest E1;
  page := page E1 |}.

Definition v3 : World :=
  step E2 (CreateMessage "id-0" "alice" "hi there" assistant None)
    (step E2 (CreateMessage "id-0" "alice" "hello" user None)
       (step E2 (CreateChat "alice" "test-chat") empty_world)).

(** A store whose pages hold three items (standing for messages of a third
    of a megabyte each), a setter that does not run, and numbered
    identifiers.  Alice creates a chat and four messages. *)
Definition E3 : Env := {|
  now := now E1;
  randomUUID := λ n, "id-" +:+ pretty n;
  watch_all := false;
  lower_rest := lower_rest E1;
  page := λ _, 3 |}.

Definition p1 : World := step E3 (CreateChat "alice" "long-chat") empty_world.
Definition p5 : World :=
  step E3 (CreateMessage "id-0" "alice" "four" user None)
    (step E3 (CreateMessage "id-0" "alice" "three" user None)
       (step E3 (CreateMessage "id-0" "alice" "two" user None)
          (step E3 (CreateMessage "id-0" "alice" "one" user None) p1))).

Definition first_in_p5 : MessageItem.t :=
  MessageItem.mk "id-0" "id-1" "alice"
    "2024-05-01T12:00:00.002Z" "2024-05-01T12:00:00.002Z" "one" None user.

Definition fourth_in_p5 : MessageItem.t :=
  MessageItem.mk "id-0" "id-4" "alice"
    "2024-05-01T12:00:00.005Z" "2024-05-01T12:00:01.000Z" "four" None user.

(** * Properties *)

(** ** The order on strings *)

Lemma ascii_compare_refl (a : Ascii.ascii) : Ascii.compare a a = Eq.
Proof. unfold Ascii.compare. apply N.compare_refl. Qed.

Lemma ascii_compare_eq (a b : Ascii.ascii) : Ascii.compare a b = Eq ↔ a = b.
Proof.
  split; [apply Ascii.compare_eq_iff | intros ->; apply ascii_compare_refl].
Qed.

Lemma ascii_compare_lt_trans (a b c : Ascii.ascii) :
  Ascii.compare a b = Lt → Ascii.compare b c = Lt → Ascii.compare a c = Lt.
Proof.
  unfold Ascii.compare. rewrite !N.compare_lt_iff. lia.
Qed.

Lemma str_compare_refl (s : string) : String.compare s s = Eq.
Proof.
  induction s as [|a s IH]; simpl; [done|].
  by rewrite ascii_compare_refl.
Qed.

Lemma str_compare_eq (s1 s2 : string) : String.compare s1 s2 = Eq ↔ s1 = s2.
Proof.
  split; [apply String.compare_eq_iff | intros ->; apply str_compare_refl].
Qed.

Lemma str_compare_lt_trans (s1 s2 s3 : string) :
  String.compare s1 s2 = Lt → String.compare s2 s3 = Lt →
  String.compare s1 s3 = Lt.
Proof.
  revert s2 s3.
  induction s1 as [|a s1 IH]; intros [|b s2] [|c s3]; simpl; try done.
  destruct (Ascii.compare a b) eqn:Hab; try done.
  - apply ascii_compare_eq in Hab as ->.
    destruct (Ascii.compare b c); try done. apply IH.
  - destruct (Ascii.compare b c) eqn:Hbc; try done.
    + apply ascii_compare_eq in Hbc as <-. by rewrite Hab.
    + by rewrite (ascii_compare_lt_trans a b c).
Qed.

Lemma str_lt_compare (a b : string) : str_lt a b ↔ String.compare a b = Lt.
Proof. unfold str_lt, String.ltb. by destruct (String.compare a b). Qed.

Lemma str_le_compare (a b : string) : str_le a b ↔ String.compare a b ≠ Gt.
Proof. unfold str_le, String.leb. by destruct (String.compare a b). Qed.

Lemma str_le_lt_eq (a b : string) : str_le a b ↔ str_lt a b ∨ a = b.
Proof.
  rewrite str_le_compare, str_lt_compare. split.
  - destruct (String.compare a b) eqn:Hc; [right|by left|done].
    by apply str_compare_eq.
  - intros [->| ->]; [done|]. by rewrite str_compare_refl.
Qed.

Lemma str_lt_irrefl (a : string) : ¬ str_lt a a.
Proof. rewrite str_lt_compare, str_compare_refl. done. Qed.

Lemma str_lt_le (a b : string) : str_lt a b → str_le a b.
Proof. rewrite str_le_lt_eq. auto. Qed.

Global Instance str_lt_trans : Transitive str_lt.
Proof.
  intros a b c. rewrite !str_lt_compare. apply str_compare_lt_trans.
Qed.

Global Instance str_le_refl : Reflexive str_le.
Proof. intros a. apply str_le_lt_eq. by right. Qed.

Global Instance str_le_trans : Transitive str_le.
Proof.
  intros a b c. rewrite !str_le_lt_eq.
  intros [Hab| ->] [Hbc| ->]; auto. left. by transitivity b.
Qed.

Global Instance str_le_total : Total str_le.
Proof. intros a b. apply String.leb_total. Qed.

Global Instance str_le_antisym : AntiSymm (=) str_le.
Proof. intros a b. apply String.leb_antisym. Qed.

Lemma str_lt_not_le (a b : string) : str_lt a b → ¬ str_le b a.
Proof.
  intros Hab Hba. apply str_lt_le in Hab as Hab'.
  assert (a = b) as -> by by apply (anti_symm str_le).
  by apply str_lt_irrefl in Hab.
Qed.

(** Comparison looks through a common prefix. *)

Lemma str_compare_app_l (p a b : string) :
  String.compare (p +:+ a) (p +:+ b) = String.compare a b.
Proof.
  induction p as [|c p IH]; simpl; [done|].
  by rewrite ascii_compare_refl.
Qed.

Lemma str_app_inj_l (p a b : string) : p +:+ a = p +:+ b → a = b.
Proof. induction p; simpl; naive_solver. Qed.

Lemma str_app_cons (x : Ascii.ascii) (a b : string) :
  String x a +:+ b = String x (a +:+ b).
Proof. reflexivity. Qed.

Lemma str_app_assoc (a b c : string) : (a +:+ b) +:+ c = a +:+ (b +:+ c).
Proof.
  induction a as [|x a IH]; [done|]. rewrite !str_app_cons. by f_equal.
Qed.

Lemma str_app_empty_r (a : string) : a +:+ EmptyString = a.
Proof. induction a as [|x a IH]; [done|]. rewrite str_app_cons. by f_equal. Qed.

Lemma prefix_empty (s : string) : String.prefix EmptyString s = true.
Proof. by destruct s. Qed.

(** ** Lower case *)

Lemma is_digit_ascii (a : Ascii.ascii) : is_digit a = true → is_ascii a = true.
Proof.
  unfold is_digit, is_ascii.
  rewrite andb_true_iff, !Nat.leb_le, Nat.ltb_lt. lia.
Qed.

Lemma is_digit_lower (a : Ascii.ascii) : is_digit a = true → lower_ascii a = a.
Proof.
  unfold is_digit, lower_ascii, is_upper.
  rewrite andb_true_iff, !Nat.leb_le. intros [? ?].
  destruct (65 <=? Ascii.nat_of_ascii a) eqn:Hu; [|done].
  apply Nat.leb_le in Hu. lia.
Qed.

Lemma lower_from_ascii_app (rest : string → string → string) (seen a b : string) :
  all_ascii a = true →
  lower_from rest seen (a +:+ b)
  = lower_string a +:+ lower_from rest (seen +:+ a) b.
Proof.
  revert seen. induction a as [|x a IH]; intros seen Ha.
  - by rewrite str_app_empty_r.
  - cbn [all_ascii] in Ha. apply andb_true_iff in Ha as [Hx Ha].
    rewrite str_app_cons. cbn [lower_from lower_string].
    rewrite Hx, IH by done. by rewrite str_app_assoc.
Qed.

Lemma lower_from_plain (rest : string → string → string) (seen s : string) :
  plain s = true → lower_from rest seen s = s.
Proof.
  revert seen. induction s as [|x s IH]; intros seen Hs; [done|].
  cbn [plain] in Hs.
  apply andb_true_iff in Hs as [Hx Hs]. apply andb_true_iff in Hx as [Hx Hu].
  cbn [lower_from]. rewrite Hx, IH by done. unfold lower_ascii.
  by destruct (is_upper x).
Qed.

Lemma matches_all_ascii (pattern s : string) :
  all_ascii pattern = true → matches pattern s = true → all_ascii s = true.
Proof.
  revert s. induction pattern as [|p pattern IH]; intros [|a s] Hp Hm;
    cbn [matches all_ascii] in *; try done.
  apply andb_true_iff in Hp as [Hp Hpattern].
  apply andb_true_iff in Hm as [Ha Hm].
  rewrite (IH s) by done. rewrite andb_true_r.
  destruct (Ascii.eqb p digit_mark); [by apply is_digit_ascii|].
  apply Ascii.eqb_eq in Ha. by subst a.
Qed.

(** Two strings of one format compare after lower-casing as they do before:
    where the format has a letter both have that letter, and elsewhere they
    have digits. *)
Lemma matches_lower_compare (pattern s1 s2 x y : string) :
  matches pattern s1 = true → matches pattern s2 = true →
  String.compare (lower_string s1 +:+ x) (lower_string s2 +:+ y) =
    match String.compare s1 s2 with
    | Eq => String.compare x y
    | c => c
    end.
Proof.
  revert s1 s2.
  induction pattern as [|p pattern IH]; intros [|a1 s1] [|a2 s2] H1 H2;
    cbn [matches] in *; try done.
  apply andb_true_iff in H1 as [Ha1 H1]. apply andb_true_iff in H2 as [Ha2 H2].
  cbn [lower_string]. rewrite !str_app_cons. cbn [String.compare].
  assert (Ascii.compare (lower_ascii a1) (lower_ascii a2) = Ascii.compare a1 a2)
    as ->.
  { destruct (Ascii.eqb p digit_mark).
    - by rewrite !is_digit_lower.
    - apply Ascii.eqb_eq in Ha1, Ha2. subst a1 a2.
      by rewrite !ascii_compare_refl. }
  destruct (Ascii.compare a1 a2); [by apply IH|done|done].
Qed.

Lemma iso_stamp_ascii (s : string) : iso_stamp s = true → all_ascii s = true.
Proof. by apply matches_all_ascii. Qed.

(** ** Range queries *)

Global Instance sk_le_trans : Transitive sk_le.
Proof. intros x y z. unfold sk_le. apply (transitivity (R:=str_le)). Qed.

Global Instance sk_le_total : Total sk_le.
Proof. intros x y. apply (total str_le). Qed.

Lemma lookup_partition (t : Table) (pk s : string) :
  partition t pk !! s = t !! (pk, s).
Proof.
  unfold partition.
  rewrite <-(lookup_map_curry (M1:=gmap string) (M2:=gmap string)).
  destruct (map_curry t !! pk); simpl; [done|apply lookup_empty].
Qed.

Lemma elem_of_partition_rows (t : Table) (pk s : string) (it : Item) :
  (s, it) ∈ partition_rows t pk ↔ t !! (pk, s) = Some it.
Proof.
  unfold partition_rows.
  by rewrite merge_sort_Permutation, elem_of_map_to_list, lookup_partition.
Qed.

Lemma partition_rows_sorted (t : Table) (pk : string) :
  StronglySorted sk_le (partition_rows t pk).
Proof. apply (StronglySorted_merge_sort sk_le). Qed.

Lemma partition_rows_NoDup (t : Table) (pk : string) :
  NoDup (partition_rows t pk).*1.
Proof.
  unfold partition_rows. rewrite merge_sort_Permutation.
  apply NoDup_fst_map_to_list.
Qed.

Lemma partition_rows_strictly_sorted (t : Table) (pk : string) :
  StronglySorted sk_lt (partition_rows t pk).
Proof.
  pose proof (partition_rows_sorted t pk) as Hs.
  pose proof (partition_rows_NoDup t pk) as Hn.
  induction Hs as [|x l Hs IH Hall]; [constructor|].
  rewrite fmap_cons in Hn. apply NoDup_cons in Hn as [Hx Hn].
  constructor; [by apply IH|].
  rewrite Forall_forall in Hall |- *. intros y Hy.
  destruct (proj1 (str_le_lt_eq x.1 y.1) (Hall y Hy)) as [Hlt|Heq]; [done|].
  destruct Hx. rewrite Heq. by apply list_elem_of_fmap_2.
Qed.

(** ** Keys *)

Lemma chat_sk_eq (E : Env) : chat_sk E = "metadata".
Proof. reflexivity. Qed.

Lemma message_sk_begins_eq (E : Env) : message_sk_begins E = "msg#".
Proof. reflexivity. Qed.

Lemma chat_pk_eq (E : Env) (chatId : string) :
  chat_pk E chatId = "chat#" +:+ lower_from (lower_rest E) "CHAT#" chatId.
Proof. reflexivity. Qed.

Lemma message_sk_eq (E : Env) (createdAt messageId : string) :
  message_sk E createdAt messageId
  = "msg#" +:+ lower_from (lower_rest E) "MSG#" (createdAt +:+ "#" +:+ messageId).
Proof. reflexivity. Qed.

Lemma chat_sk_message_sk (E : Env) (createdAt messageId : string) :
  chat_sk E ≠ message_sk E createdAt messageId.
Proof. by rewrite chat_sk_eq, message_sk_eq. Qed.

Lemma chat_sk_lt_message_sk (E : Env) (createdAt messageId : string) :
  str_lt (chat_sk E) (message_sk E createdAt messageId).
Proof. by rewrite chat_sk_eq, message_sk_eq. Qed.

Lemma message_sk_prefix (E : Env) (createdAt messageId : string) :
  String.prefix (message_sk_begins E) (message_sk E createdAt messageId) = true.
Proof.
  rewrite message_sk_begins_eq, message_sk_eq. simpl. apply prefix_empty.
Qed.

Lemma chat_sk_prefix (E : Env) :
  String.prefix (message_sk_begins E) (chat_sk E) = false.
Proof. done. Qed.

(** In plain identifiers the key shows the identifier itself. *)
Lemma chat_pk_plain (E : Env) (chatId : string) :
  plain chatId = true → chat_pk E chatId = "chat#" +:+ chatId.
Proof. intros Hp. by rewrite chat_pk_eq, lower_from_plain. Qed.

Lemma chat_pk_plain_inj (E : Env) (a b : string) :
  plain a = true → plain b = true → chat_pk E a = chat_pk E b → a = b.
Proof.
  intros Ha Hb. rewrite !chat_pk_plain by done. apply str_app_inj_l.
Qed.

(** For a timestamp in the format of [toISOString] and a plain identifier,
    the sort key is the template in lower case. *)
Lemma message_sk_generated (E : Env) (createdAt messageId : string) :
  iso_stamp createdAt = true → plain messageId = true →
  message_sk E createdAt messageId
  = "msg#" +:+ lower_string createdAt +:+ "#" +:+ messageId.
Proof.
  intros Hc Hi. rewrite message_sk_eq.
  rewrite lower_from_ascii_app by by apply iso_stamp_ascii.
  change (lower_from ?r ?seen ("#" +:+ messageId))
    with ("#" +:+ lower_from r (seen +:+ "#") messageId).
  by rewrite lower_from_plain.
Qed.

(** Among such keys, the order is by [createdAt] first and by [messageId]
    among equal timestamps. *)
Lemma message_sk_compare (E : Env) (c1 c2 i1 i2 : string) :
  iso_stamp c1 = true → iso_stamp c2 = true →
  plain i1 = true → plain i2 = true →
  String.compare (message_sk E c1 i1) (message_sk E c2 i2) =
    match String.compare c1 c2 with
    | Eq => String.compare i1 i2
    | c => c
    end.
Proof.
  intros Hc1 Hc2 Hi1 Hi2. rewrite !message_sk_generated by done.
  rewrite str_compare_app_l.
  rewrite (matches_lower_compare _ _ _ _ _ Hc1 Hc2).
  by rewrite (str_compare_app_l "#").
Qed.

(** ** Stored messages and the page a query returns *)

Lemma elem_of_stored_messages (E : Env) (t : Table) (chatId : string)
    (m : MessageItem.t) :
  m ∈ stored_messages E t chatId ↔
  ∃ s, t !! (message_pk E chatId, s) = Some (MessageRow m) ∧
       String.prefix (message_sk_begins E) s = true.
Proof.
  unfold stored_messages. rewrite list_elem_of_omap. split.
  - intros [[s it] [Hin Hf]]. apply elem_of_partition_rows in Hin.
    unfold as_message in Hf. simpl in Hf. destruct it as [|m']; [done|].
    destruct (String.prefix (message_sk_begins E) s) eqn:Hp; [|done].
    injection Hf as ->. eauto.
  - intros (s & Hl & Hp). exists (s, MessageRow m).
    split; [by apply elem_of_partition_rows|].
    unfold as_message. simpl. by rewrite Hp.
Qed.

(** In a table whose rows sit at their keys, the messages stored for a chat
    are the message rows whose own [chatId] gives the chat's partition key. *)
Lemma elem_of_stored_messages_wf (E : Env) (t : Table) (chatId : string)
    (m : MessageItem.t) :
  wf_table E t →
  m ∈ stored_messages E t chatId ↔
  t !! item_key E (MessageRow m) = Some (MessageRow m) ∧
  message_pk E (MessageItem.chatId m) = message_pk E chatId.
Proof.
  intros Hwf. rewrite elem_of_stored_messages. split.
  - intros (s & Hl & _). pose proof (Hwf _ _ Hl) as Hk.
    pose proof (f_equal fst Hk) as Hpk. pose proof (f_equal snd Hk) as Hsk.
    cbn [fst snd item_key] in Hpk, Hsk.
    split; [|done]. cbn [item_key]. by rewrite <-Hpk, <-Hsk.
  - intros [Hl Hpk]. cbn [item_key] in Hl. rewrite Hpk in Hl.
    eexists. split; [exact Hl|apply message_sk_prefix].
Qed.

(** The key of a stored message, computed as the methods compute it: from the
    [chatId] of the call and the message's [createdAt] and [messageId]. *)
Lemma stored_message_key (E : Env) (t : Table) (chatId : string)
    (m : MessageItem.t) :
  wf_table E t → m ∈ stored_messages E t chatId →
  item_key E (MessageRow m)
  = (message_pk E chatId,
     message_sk E (MessageItem.createdAt m) (MessageItem.messageId m)) ∧
  t !! (message_pk E chatId,
        message_sk E (MessageItem.createdAt m) (MessageItem.messageId m))
  = Some (MessageRow m).
Proof.
  intros Hwf [Hrow Hpk]%(elem_of_stored_messages_wf _ _ _ _ Hwf).
  cbn [item_key] in *. rewrite Hpk in Hrow. by rewrite Hpk.
Qed.

Lemma omap_filter {A B} (f : A → option B) (P : A → Prop)
    `{∀ x, Decision (P x)} (l : list A) :
  (∀ x, ¬ P x → f x = None) → omap f (filter P l) = omap f l.
Proof.
  intros Hf. induction l as [|x l IH]; [done|].
  rewrite filter_cons. destruct (decide (P x)) as [Hx|Hx]; cbn [omap list_omap].
  - by rewrite IH.
  - by rewrite (Hf x Hx).
Qed.

Lemma omap_matching_rows (E : Env) (t : Table) (chatId : string) :
  omap (as_message E) (matching_rows E t chatId) = stored_messages E t chatId.
Proof.
  unfold matching_rows, stored_messages. apply omap_filter.
  intros [s it] Hp. unfold as_message. cbn [fst snd] in *.
  destruct it; [done|]. by destruct (String.prefix _ s).
Qed.

(** One page is a leading part of the messages stored, and all of them when
    they fit. *)
Lemma message_page_prefix (E : Env) (t : Table) (chatId : string) :
  message_page E t chatId `prefix_of` stored_messages E t chatId.
Proof.
  unfold message_page, first_page. rewrite <-omap_matching_rows.
  set (rows := matching_rows E t chatId). set (n := page E rows.*2).
  exists (omap (as_message E) (drop n rows)).
  by rewrite <-omap_app, take_drop.
Qed.

Lemma message_page_fits (E : Env) (t : Table) (chatId : string) :
  fits_page E t chatId → message_page E t chatId = stored_messages E t chatId.
Proof.
  intros Hfits. unfold message_page, first_page.
  by rewrite take_ge, omap_matching_rows.
Qed.

Lemma elem_of_message_page (E : Env) (t : Table) (chatId : string)
    (m : MessageItem.t) :
  m ∈ message_page E t chatId → m ∈ stored_messages E t chatId.
Proof.
  destruct (message_page_prefix E t chatId) as [k ->].
  intros Hin. apply elem_of_app. by left.
Qed.

Lemma find_message_Some (messageId : string) (ms : list MessageItem.t) m :
  find_message messageId ms = Some m →
  m ∈ ms ∧ MessageItem.messageId m = messageId.
Proof.
  intros [Hin Heq]%List.find_some.
  split; [by apply list_elem_of_In|by apply String.eqb_eq].
Qed.

Lemma find_message_None (messageId : string) (ms : list MessageItem.t) :
  find_message messageId ms = None ↔
  ∀ m, m ∈ ms → MessageItem.messageId m ≠ messageId.
Proof.
  unfold find_message. split.
  - intros Hnone m Hin%list_elem_of_In.
    by apply String.eqb_neq, (List.find_none _ _ Hnone).
  - intros Hall. induction ms as [|m ms IH]; simpl; [done|].
    destruct (String.eqb_spec (MessageItem.messageId m) messageId) as [Heq|_].
    + destruct (Hall m); [left|done].
    + apply IH. intros m' Hin. apply Hall. by right.
Qed.

(** With distinct identifiers, the search returns the message itself. *)
Lemma find_message_NoDup (ms : list MessageItem.t) (m : MessageItem.t) :
  NoDup (MessageItem.messageId <$> ms) → m ∈ ms →
  find_message (MessageItem.messageId m) ms = Some m.
Proof.
  unfold find_message.
  induction ms as [|m' ms IH]; simpl; intros Hnd Hin; [by inversion Hin|].
  apply NoDup_cons in Hnd as [Hm' Hnd].
  destruct (String.eqb_spec (MessageItem.messageId m') (MessageItem.messageId m))
    as [Heq|Hne].
  - apply elem_of_cons in Hin as [->|Hin]; [done|].
    destruct Hm'. rewrite Heq. by apply list_elem_of_fmap_2.
  - apply elem_of_cons in Hin as [->|Hin]; [done|]. by apply IH.
Qed.

(** What the search finds in a leading part, it finds in the whole list. *)
Lemma find_message_app (messageId : string) (ms ks : list MessageItem.t) m :
  find_message messageId ms = Some m →
  find_message messageId (ms ++ ks) = Some m.
Proof.
  unfold find_message. induction ms as [|m' ms IH]; simpl; [done|].
  by destruct (String.eqb (MessageItem.messageId m') messageId).
Qed.

Lemma find_message_page (E : Env) (t : Table) (chatId messageId : string) m :
  find_message messageId (message_page E t chatId) = Some m →
  find_message messageId (stored_messages E t chatId) = Some m.
Proof.
  destruct (message_page_prefix E t chatId) as [k ->]. apply find_message_app.
Qed.

(** ** Running methods *)

Lemma run_bind {A B} (m : M A) (f : A → M B) (E : Env) (w : World) :
  run (m ≫= f) E w =
    match run m E w with
    | (Ok a, w') => run (f a) E w'
    | (Throw e, w') => (Throw e, w')
    end.
Proof. reflexivity. Qed.

Lemma run_require_userId (userId : string) (E : Env) (w : World) :
  userId ≠ EmptyString → run (require_userId userId) E w = (Ok (), w).
Proof.
  intros Hne. unfold require_userId.
  by destruct (String.eqb_spec userId EmptyString).
Qed.

Lemma run_getChatForUser (chatId userId : string) (E : Env) (w : World) :
  userId ≠ EmptyString →
  run (getChatForUser chatId userId) E w =
    (Ok (owned_by userId (stored_chat E (table w) chatId)), w).
Proof.
  intros Hne. unfold getChatForUser.
  by rewrite run_bind, run_require_userId.
Qed.

Lemma owned_by_hidden (E : Env) (t : Table) (chatId userId : string) :
  hidden_from E t chatId userId →
  owned_by userId (stored_chat E t chatId) = None.
Proof.
  intros [->|(c & -> & Hne)]; simpl; [done|]. by rewrite decide_False.
Qed.

Lemma owned_by_Some (userId : string) (chat : option ChatItem.t) c :
  owned_by userId chat = Some c ↔ chat = Some c ∧ ChatItem.userId c = Some userId.
Proof.
  unfold owned_by. destruct chat as [c'|]; [|split; [done|by intros [? _]]].
  case_decide as Hu; split.
  - by intros [= ->].
  - by intros [[= ->] _].
  - done.
  - by intros [[= ->] ?].
Qed.

Lemma owned_by_None (E : Env) (t : Table) (chatId userId : string) :
  owned_by userId (stored_chat E t chatId) = None →
  hidden_from E t chatId userId.
Proof.
  unfold hidden_from, owned_by.
  destruct (stored_chat E t chatId) as [c|]; [|by left].
  case_decide; [done|]. right. eauto.
Qed.

Lemma run_getChatForUser_hidden (chatId userId : string) E w :
  userId ≠ EmptyString → hidden_from E (table w) chatId userId →
  run (getChatForUser chatId userId) E w = (Ok None, w).
Proof.
  intros Hne Hhid. rewrite run_getChatForUser by done.
  by rewrite (owned_by_hidden E).
Qed.

Lemma run_getMessagesForChat_hidden (chatId userId : string) E w :
  userId ≠ EmptyString → hidden_from E (table w) chatId userId →
  run (getMessagesForChat chatId userId) E w = (Ok [], w).
Proof.
  intros Hne Hhid. unfold getMessagesForChat.
  rewrite run_bind, run_require_userId by done.
  by rewrite run_bind, run_getChatForUser_hidden.
Qed.

(** C4, as the code has it.  For a non-empty [userId] and a chat whose key
    holds no chat row, or one stored under another owner, [getChatForUser]
    returns null and [getMessagesForChat] returns the empty sequence; neither
    throws and neither changes the store.  The key is the [chatId] in lower
    case: two identifiers that differ in case only name one chat. *)
Theorem C4_reads_on_hidden_chat (E : Env) (w : World) (chatId userId : string) :
  userId ≠ EmptyString →
  hidden_from E (table w) chatId userId →
  run (getChatForUser chatId userId) E w = (Ok None, w) ∧
  run (getMessagesForChat chatId userId) E w = (Ok [], w).
Proof.
  intros Hne Hhid.
  split; [by apply run_getChatForUser_hidden|by apply run_getMessagesForChat_hidden].
Qed.

(** C5, as the code has it.  For a non-empty [userId] and a chat whose key
    holds no chat row, or one stored under another owner, [createMessage]
    (whatever the content, role and reasoning content), [updateChatName] and
    [updateMessage] throw the chat-not-found error, and the store is left as
    it was.  The key is the [chatId] in lower case. *)
Theorem C5_writes_on_hidden_chat (E : Env) (w : World) (chatId userId : string) :
  userId ≠ EmptyString →
  hidden_from E (table w) chatId userId →
  is_NotFound (ChatNotFound chatId) = true ∧
  (∀ content role reasoningContent,
     run (createMessage chatId userId content role reasoningContent) E w
     = (Throw (ChatNotFound chatId), w)) ∧
  (∀ name,
     run (updateChatName chatId userId name) E w
     = (Throw (ChatNotFound chatId), w)) ∧
  (∀ messageId content reasoningContent,
     run (updateMessage chatId messageId userId content reasoningContent) E w
     = (Throw (ChatNotFound chatId), w)).
Proof.
  intros Hne Hhid. apply owned_by_hidden in Hhid.
  split; [done|].
  split; [|split]; intros;
    unfold createMessage, updateChatName, updateMessage;
    rewrite run_bind, run_require_userId by done;
    rewrite run_bind, run_getChatForUser by done;
    by rewrite Hhid.
Qed.

(** ** The entity layer, step by step *)

Ltac run_steps :=
  unfold run, mbind, M_bind, mret, M_ret, throw, read_table, write_table,
    env, new_Date_toISOString, crypto_randomUUID;
  cbn [table ticks draws tick draw set_table].

Lemma table_after_stamp (E : Env) (w : World) :
  table (after_stamp E w) = table w.
Proof. unfold after_stamp. by destruct (watch_all E). Qed.

Lemma run_updatedAt_setter (E : Env) (w : World) :
  run updatedAt_setter E w = (Ok (stamp_of E w), after_stamp E w).
Proof.
  unfold updatedAt_setter, stamp_of, after_stamp. run_steps.
  by destruct (watch_all E).
Qed.

Lemma run_message_query (chatId : string) (E : Env) (w : World) :
  run (message_query chatId) E w = (Ok (message_page E (table w) chatId), w).
Proof. reflexivity. Qed.

Lemma run_message_delete (chatId createdAt messageId : string) E w :
  run (message_delete chatId createdAt messageId) E w =
    (Ok (), set_table
              (delete (message_pk E chatId, message_sk E createdAt messageId)
                 (table w)) w).
Proof. reflexivity. Qed.

Lemma run_chat_delete (chatId : string) E w :
  run (chat_delete chatId) E w =
    (Ok (), set_table (delete (chat_pk E chatId, chat_sk E) (table w)) w).
Proof. reflexivity. Qed.

Lemma run_chat_write (guarded : bool) (chatId : string) (name : option string) E w :
  from_option validate_name true name = true →
  run (chat_write guarded chatId name) E w =
    match stored_chat E (table w) chatId with
    | Some c =>
        (Ok (chat_set chatId name (stamp_of E w) c),
         set_table (<[(chat_pk E chatId, chat_sk E) :=
                        ChatRow (chat_set chatId name (stamp_of E w) c)]> (table w))
           (after_stamp E w))
    | None =>
        if guarded then (Throw (Store ConditionalCheckFailed), after_stamp E w)
        else
          (Ok (ChatItem.mk chatId None name None (stamp_of E w)),
           set_table (<[(chat_pk E chatId, chat_sk E) :=
                          ChatRow (ChatItem.mk chatId None name None (stamp_of E w))]>
                        (table w))
             (after_stamp E w))
    end.
Proof.
  intros Hname. unfold chat_write.
  rewrite run_bind.
  replace (run (check_name name) E w) with (Ok (), w : World);
    [|unfold check_name; destruct name as [n|]; simpl in Hname;
      [by rewrite Hname|done]].
  rewrite run_bind, run_updatedAt_setter.
  run_steps. rewrite table_after_stamp.
  destruct (stored_chat E (table w) chatId); [done|]. by destruct guarded.
Qed.

Lemma run_message_patch (chatId createdAt messageId content : string)
    (reasoningContent : option string) E w :
  run (message_patch chatId createdAt messageId content reasoningContent) E w =
    match table w !! (message_pk E chatId, message_sk E createdAt messageId) with
    | Some (MessageRow m) =>
        let m' := message_set chatId createdAt messageId content
                    reasoningContent (stamp_of E w) m in
        (Ok m',
         set_table (<[(message_pk E chatId, message_sk E createdAt messageId) :=
                        MessageRow m']> (table w))
           (after_stamp E w))
    | _ => (Throw (Store ConditionalCheckFailed), after_stamp E w)
    end.
Proof.
  unfold message_patch. rewrite run_bind, run_updatedAt_setter.
  run_steps. rewrite table_after_stamp.
  by destruct (table w !! _) as [[|]|].
Qed.

(** Writes under a message key leave the metadata row alone, and conversely. *)
Lemma stored_chat_insert_message (E : Env) (t : Table)
    (chatId pk createdAt messageId : string) it :
  stored_chat E (<[(pk, message_sk E createdAt messageId) := it]> t) chatId
  = stored_chat E t chatId.
Proof.
  unfold stored_chat. rewrite lookup_insert_ne; [done|].
  intros Hk. pose proof (f_equal snd Hk) as Hs. cbn [snd] in Hs.
  by destruct (chat_sk_message_sk E createdAt messageId).
Qed.

Lemma stored_chat_delete_message (E : Env) (t : Table)
    (chatId pk createdAt messageId : string) :
  stored_chat E (delete (pk, message_sk E createdAt messageId) t) chatId
  = stored_chat E t chatId.
Proof.
  unfold stored_chat. rewrite lookup_delete_ne; [done|].
  intros Hk. pose proof (f_equal snd Hk) as Hs. cbn [snd] in Hs.
  by destruct (chat_sk_message_sk E createdAt messageId).
Qed.

Lemma stored_chat_insert (E : Env) (t : Table) (chatId : string) (c : ChatItem.t) :
  stored_chat E (<[(chat_pk E chatId, chat_sk E) := ChatRow c]> t) chatId = Some c.
Proof. unfold stored_chat. by rewrite lookup_insert_eq. Qed.

Lemma stamp_of_set_table (E : Env) (t : Table) (w : World) :
  stamp_of E (set_table t w) = stamp_of E w.
Proof. reflexivity. Qed.

Lemma set_table_after_stamp (E : Env) (t t' : Table) (w : World) :
  set_table t (after_stamp E (set_table t' w)) = set_table t (after_stamp E w).
Proof. unfold after_stamp. by destruct (watch_all E). Qed.

(** ** deleteMessage *)

Lemma run_deleteMessage (chatId messageId userId : string) E w :
  userId ≠ EmptyString →
  run (deleteMessage chatId messageId userId) E w =
    match find_message messageId (message_page E (table w) chatId) with
    | None => (Throw (MessageNotFoundOrDenied messageId), w)
    | Some m =>
        if String.eqb (MessageItem.userId m) userId then
          let t' := delete (message_pk E chatId,
                            message_sk E (MessageItem.createdAt m) messageId)
                      (table w) in
          match stored_chat E (table w) chatId with
          | Some c =>
              (Ok true,
               set_table (<[(chat_pk E chatId, chat_sk E) :=
                              ChatRow (chat_set chatId None (stamp_of E w) c)]> t')
                 (after_stamp E w))
          | None =>
              (Throw (Store ConditionalCheckFailed), after_stamp E (set_table t' w))
          end
        else (Throw (MessageNotFoundOrDenied messageId), w)
    end.
Proof.
  intros Hne. unfold deleteMessage, chat_patch.
  rewrite run_bind, run_require_userId by done.
  rewrite run_bind, run_message_query.
  destruct (find_message _ _) as [m|]; [|done].
  destruct (String.eqb (MessageItem.userId m) userId); [|done].
  cbn [negb]. rewrite run_bind, run_message_delete.
  rewrite run_bind, run_chat_write by done.
  cbn [table set_table]. rewrite stored_chat_delete_message.
  destruct (stored_chat E (table w) chatId); [|done].
  by rewrite stamp_of_set_table, set_table_after_stamp.
Qed.


(** C9, as the code has it.  [deleteMessage] never compares the caller with
    the chat's owner.  For a chat whose messages fit one page of the query,
    it returns true exactly when the message found under the identifier was
    stored with the caller's [userId] and the chat's metadata row exists to
    be touched; the message row is then gone, whoever owns the chat.  A
    message stored with [userId] "assistant" is refused to every caller whose
    [userId] is not "assistant". *)
Theorem C9_deleteMessage_checks_author_only (E : Env) (w : World)
    (chatId messageId userId : string) :
  userId ≠ EmptyString →
  wf_table E (table w) →
  fits_page E (table w) chatId →
  let found := find_message messageId (stored_messages E (table w) chatId) in
  let result := run (deleteMessage chatId messageId userId) E w in
  (result.1 = Ok true ↔
     ∃ m, found = Some m ∧ MessageItem.userId m = userId ∧
          is_Some (stored_chat E (table w) chatId)) ∧
  (∀ m c, found = Some m → MessageItem.userId m = userId →
          stored_chat E (table w) chatId = Some c →
          result.1 = Ok true ∧
          table result.2 !! item_key E (MessageRow m) = None) ∧
  (∀ m, found = Some m → MessageItem.userId m = "assistant" →
        userId ≠ "assistant" →
        result = (Throw (MessageNotFoundOrDenied messageId), w)).
Proof.
  intros Hne Hwf Hfits found result. subst found result.
  rewrite run_deleteMessage by done. rewrite message_page_fits by done.
  destruct (find_message _ _) as [m|] eqn:Hfind.
  2:{ split; [|split]; [|done..]. split; [done|]. by intros (m & ? & _). }
  apply find_message_Some in Hfind as [Hin Hid].
  destruct (stored_message_key _ _ _ _ Hwf Hin) as [Hkey _].
  rewrite Hid in Hkey.
  destruct (String.eqb_spec (MessageItem.userId m) userId) as [Hauthor|Hother].
  - cbn zeta. destruct (stored_chat E (table w) chatId) as [c|] eqn:Hchatrow.
    + split; [|split].
      * split; [|done]. intros _. exists m. eauto.
      * intros m' c' [= <-] _ _. split; [done|]. cbn [snd table set_table].
        rewrite Hkey, lookup_insert_ne; [apply lookup_delete_eq|].
        intros Hk. pose proof (f_equal snd Hk) as Hs. cbn [snd] in Hs.
        by destruct (chat_sk_message_sk E (MessageItem.createdAt m) messageId).
      * intros m' [= <-] Hbot Hcaller. congruence.
    + split; [|split].
      * split; [done|]. by intros (m' & _ & _ & [c Hc]).
      * done.
      * intros m' [= <-] Hbot Hcaller. congruence.
  - split; [|split].
    + split; [done|]. intros (m' & [= <-] & Hauthor & _). done.
    + intros m' c [= <-] Hauthor. done.
    + done.
Qed.

(** ** deleteChat *)

Lemma set_table_id (w : World) : set_table (table w) w = w.
Proof. by destruct w. Qed.

Lemma run_for_of_delete (chatId : string) (ms : list MessageItem.t) E w :
  run (for_of ms (λ message,
         message_delete chatId (MessageItem.createdAt message)
           (MessageItem.messageId message))) E w
  = (Ok (), set_table (delete_messages E chatId ms (table w)) w).
Proof.
  revert w. induction ms as [|m ms IH]; intros w; cbn [for_of].
  - unfold delete_messages. cbn [foldl]. by rewrite set_table_id.
  - rewrite run_bind, run_message_delete, IH. done.
Qed.

Lemma lookup_delete_messages_Some (E : Env) (chatId : string)
    (ms : list MessageItem.t) (t : Table) (k : Key) (it : Item) :
  delete_messages E chatId ms t !! k = Some it ↔
  t !! k = Some it ∧ ∀ m, m ∈ ms → message_key_in E chatId m ≠ k.
Proof.
  unfold delete_messages. revert t.
  induction ms as [|m ms IH]; intros t; cbn [foldl].
  - split; [|by intros [? _]]. intros Hl. split; [done|].
    intros m Hin. by apply elem_of_nil in Hin.
  - rewrite IH, lookup_delete_Some. split.
    + intros [[Hne Hl] Hall]. split; [done|].
      intros m' [->|Hin]%elem_of_cons; [done|by apply Hall].
    + intros [Hl Hall]. split; [split; [|done]|].
      * apply Hall. by left.
      * intros m' Hin. apply Hall. by right.
Qed.

Lemma lookup_delete_messages_ne (E : Env) (chatId : string)
    (ms : list MessageItem.t) (t : Table) (k : Key) :
  k.1 ≠ message_pk E chatId → delete_messages E chatId ms t !! k = t !! k.
Proof.
  intros Hk. unfold delete_messages. revert t.
  induction ms as [|m ms IH]; intros t; cbn [foldl]; [done|].
  rewrite IH. apply lookup_delete_ne. unfold message_key_in.
  intros <-. by destruct Hk.
Qed.

Lemma stored_chat_delete_messages (E : Env) (chatId chatId' : string)
    (ms : list MessageItem.t) (t : Table) :
  stored_chat E (delete_messages E chatId ms t) chatId' = stored_chat E t chatId'.
Proof.
  unfold delete_messages. revert t.
  induction ms as [|m ms IH]; intros t; cbn [foldl]; [done|].
  rewrite IH. apply stored_chat_delete_message.
Qed.

Lemma stored_messages_nil (E : Env) (t : Table) (chatId : string) :
  (∀ s, t !! (message_pk E chatId, s) = None) → stored_messages E t chatId = [].
Proof.
  intros Hnone. apply elem_of_nil_inv. intros m.
  rewrite elem_of_stored_messages. intros (s & Hl & _). by rewrite Hnone in Hl.
Qed.

Lemma stored_chat_row (E : Env) (t : Table) (chatId : string) (c : ChatItem.t) :
  stored_chat E t chatId = Some c →
  t !! (chat_pk E chatId, chat_sk E) = Some (ChatRow c).
Proof.
  unfold stored_chat.
  by destruct (t !! (chat_pk E chatId, chat_sk E)) as [[|]|]; intros; simplify_eq.
Qed.

Lemma stored_chat_delete_eq (E : Env) (t : Table) (chatId : string) :
  stored_chat E (delete (chat_pk E chatId, chat_sk E) t) chatId = None.
Proof. unfold stored_chat. by rewrite lookup_delete_eq. Qed.

Lemma run_deleteChat (chatId userId : string) E w :
  userId ≠ EmptyString →
  run (deleteChat chatId userId) E w =
    match owned_by userId (stored_chat E (table w) chatId) with
    | None => (Ok false, w)
    | Some _ =>
        (Ok true,
         set_table
           (delete (chat_pk E chatId, chat_sk E)
              (delete_messages E chatId (message_page E (table w) chatId)
                 (table w)))
           w)
    end.
Proof.
  intros Hne. unfold deleteChat.
  rewrite run_bind, run_require_userId by done.
  rewrite run_bind, run_getChatForUser by done.
  destruct (owned_by userId _); [|done].
  rewrite run_bind, run_message_query, run_bind, run_for_of_delete.
  by rewrite run_bind, run_chat_delete.
Qed.

(** C6, as the code has it.  [deleteChat] returns false, without throwing
    and without writing, when the key of the [chatId] holds no chat row or one
    stored under another owner.  When the caller owns the chat it returns
    true, the metadata row is gone and every other partition is as it was;
    afterwards [getMessagesForChat] returns the empty sequence and
    [getChatForUser] returns null.  When the messages of the chat fit one page
    of the query, the partition is left empty. *)
Theorem C6_deleteChat_cascades (E : Env) (w : World) (chatId userId : string) :
  userId ≠ EmptyString →
  (hidden_from E (table w) chatId userId →
   run (deleteChat chatId userId) E w = (Ok false, w)) ∧
  (∀ c, wf_table E (table w) →
        stored_chat E (table w) chatId = Some c →
        ChatItem.userId c = Some userId →
        ∃ w', run (deleteChat chatId userId) E w = (Ok true, w') ∧
              stored_chat E (table w') chatId = None ∧
              (∀ k, k.1 ≠ chat_pk E chatId → table w' !! k = table w !! k) ∧
              (fits_page E (table w) chatId →
               (∀ s, table w' !! (chat_pk E chatId, s) = None) ∧
               stored_messages E (table w') chatId = []) ∧
              run (getMessagesForChat chatId userId) E w' = (Ok [], w') ∧
              run (getChatForUser chatId userId) E w' = (Ok None, w')).
Proof.
  intros Hne. split.
  - intros Hhid. rewrite run_deleteChat by done.
    by rewrite (owned_by_hidden E).
  - intros c Hwf Hchat Howner. rewrite run_deleteChat by done.
    rewrite (proj2 (owned_by_Some userId _ c)) by done.
    eexists. split; [reflexivity|]. cbn [table set_table].
    set (ms := message_page E (table w) chatId).
    assert (stored_chat E (delete (chat_pk E chatId, chat_sk E)
                             (delete_messages E chatId ms (table w))) chatId
            = None) as Hgone by apply stored_chat_delete_eq.
    split; [done|]. split; [|split; [|split]].
    + intros [p s] Hp. cbn [fst] in Hp.
      rewrite lookup_delete_ne by congruence.
      by apply lookup_delete_messages_ne.
    + intros Hfits.
      assert (∀ s, delete (chat_pk E chatId, chat_sk E)
                     (delete_messages E chatId ms (table w))
                   !! (chat_pk E chatId, s) = None) as Hempty.
      { intros s. apply eq_None_not_Some. intros [it Hit].
        apply lookup_delete_Some in Hit as [Hk Hit].
        apply lookup_delete_messages_Some in Hit as [Hit Hkept].
        pose proof (Hwf _ _ Hit) as Hkey.
        pose proof (f_equal fst Hkey) as Hp. pose proof (f_equal snd Hkey) as Hs.
        destruct it as [c'|m]; cbn [item_key fst snd] in Hp, Hs.
        - destruct Hk. by rewrite Hs.
        - apply (Hkept m).
          + unfold ms. rewrite message_page_fits by done.
            apply elem_of_stored_messages_wf; [done|].
            split; [by rewrite <-Hkey|done].
          + unfold message_key_in. by rewrite Hs. }
      split; [done|]. by apply stored_messages_nil.
    + apply run_getMessagesForChat_hidden; [done|]. by left.
    + apply run_getChatForUser_hidden; [done|]. by left.
Qed.

(** ** Creation *)

Lemma validate_name_spec (name : string) :
  validate_name name = true ↔ 1 ≤ utf16_length name ≤ 100.
Proof.
  unfold validate_name.
  rewrite andb_true_iff, Nat.ltb_lt, Nat.leb_le. lia.
Qed.

Lemma run_chat_create (userId name : string) E w :
  validate_name name = true →
  run (chat_create userId name) E w =
    let c := ChatItem.mk (randomUUID E (draws w)) (Some userId) (Some name)
               (Some (now E (ticks w))) (Some (now E (2 + ticks w))) in
    let w1 := tick (tick (tick (draw w))) in
    match table w !! item_key E (ChatRow c) with
    | Some _ => (Throw (Store ConditionalCheckFailed), w1)
    | None =>
        (Ok c, set_table (<[item_key E (ChatRow c) := ChatRow c]> (table w)) w1)
    end.
Proof.
  intros Hname. unfold chat_create, check_name. run_steps. rewrite Hname.
  cbn [table ticks draws tick draw set_table].
  by destruct (table w !! _).
Qed.

Lemma run_chat_create_invalid (userId name : string) E w :
  validate_name name = false →
  run (chat_create userId name) E w
  = (Throw (Store (InvalidValue "name")), draw w).
Proof.
  intros Hname. unfold chat_create, check_name. run_steps. by rewrite Hname.
Qed.

Lemma run_message_create (chatId userId content : string) (role : Role)
    (reasoningContent : option string) E w :
  run (message_create chatId userId content role reasoningContent) E w =
    let m := MessageItem.mk chatId (randomUUID E (draws w)) userId
               (now E (ticks w)) (now E (2 + ticks w))
               content reasoningContent role in
    let w1 := tick (tick (tick (draw w))) in
    match table w !! item_key E (MessageRow m) with
    | Some _ => (Throw (Store ConditionalCheckFailed), w1)
    | None =>
        (Ok m, set_table (<[item_key E (MessageRow m) := MessageRow m]> (table w)) w1)
    end.
Proof.
  unfold message_create. run_steps. by destruct (table w !! _).
Qed.

Lemma run_createChat (userId name : string) E w :
  userId ≠ EmptyString →
  run (createChat userId name) E w =
    if validate_name name then
      let c := ChatItem.mk (randomUUID E (draws w)) (Some userId) (Some name)
                 (Some (now E (ticks w))) (Some (now E (2 + ticks w))) in
      let w1 := tick (tick (tick (draw w))) in
      match table w !! item_key E (ChatRow c) with
      | Some _ => (Throw (Store ConditionalCheckFailed), w1)
      | None =>
          (Ok c, set_table (<[item_key E (ChatRow c) := ChatRow c]> (table w)) w1)
      end
    else (Throw (Store (InvalidValue "name")), draw w).
Proof.
  intros Hne. unfold createChat. rewrite run_bind, run_require_userId by done.
  destruct (validate_name name) eqn:Hname.
  - by apply run_chat_create.
  - by apply run_chat_create_invalid.
Qed.

(** ** Renaming *)

Lemma run_updateChatName (chatId userId name : string) E w :
  userId ≠ EmptyString →
  run (updateChatName chatId userId name) E w =
    match owned_by userId (stored_chat E (table w) chatId) with
    | None => (Throw (ChatNotFound chatId), w)
    | Some _ =>
        if validate_name name then
          match stored_chat E (table w) chatId with
          | Some c =>
              (Ok (chat_set chatId (Some name) (stamp_of E w) c),
               set_table (<[(chat_pk E chatId, chat_sk E) :=
                              ChatRow (chat_set chatId (Some name) (stamp_of E w) c)]>
                            (table w))
                 (after_stamp E w))
          | None => (Throw (Store ConditionalCheckFailed), after_stamp E w)
          end
        else (Throw (Store (InvalidValue "name")), w)
    end.
Proof.
  intros Hne. unfold updateChatName, chat_patch.
  rewrite run_bind, run_require_userId by done.
  rewrite run_bind, run_getChatForUser by done.
  destruct (owned_by userId _); [|done].
  destruct (validate_name name) eqn:Hname.
  - by rewrite run_chat_write.
  - unfold chat_write, check_name. rewrite Hname. by run_steps.
Qed.

(** C8. For a chat owned by the caller and a valid new name, [updateChatName]
    followed by [getChatForUser] yields the chat with the new name and with
    [chatId], [userId] and [createdAt] as they were; [updatedAt] is either
    unchanged or the clock reading taken by the update.  (The chat is named by
    the [chatId] it is stored with.) *)
Theorem C8_updateChatName_then_get (E : Env) (w : World)
    (chatId userId name : string) (c : ChatItem.t) :
  userId ≠ EmptyString →
  1 ≤ utf16_length name ≤ 100 →
  stored_chat E (table w) chatId = Some c →
  ChatItem.chatId c = chatId →
  ChatItem.userId c = Some userId →
  ∃ c' w',
    run (updateChatName chatId userId name) E w = (Ok c', w') ∧
    run (getChatForUser chatId userId) E w' = (Ok (Some c'), w') ∧
    ChatItem.name c' = Some name ∧
    ChatItem.chatId c' = ChatItem.chatId c ∧
    ChatItem.userId c' = ChatItem.userId c ∧
    ChatItem.createdAt c' = ChatItem.createdAt c ∧
    (ChatItem.updatedAt c' = ChatItem.updatedAt c ∨
     ChatItem.updatedAt c' = Some (now E (ticks w))).
Proof.
  intros Hne Hname Hchat Hid Howner. apply validate_name_spec in Hname.
  rewrite run_updateChatName by done.
  rewrite (proj2 (owned_by_Some userId _ c)), Hname, Hchat by done.
  eexists _, _. split; [reflexivity|].
  rewrite run_getChatForUser by done. cbn [table set_table].
  rewrite stored_chat_insert.
  split.
  { unfold owned_by, chat_set. cbn [ChatItem.userId]. by rewrite decide_True. }
  repeat (split; [done|]).
  unfold chat_set, stamp_of. cbn [ChatItem.updatedAt].
  destruct (watch_all E); [by right|by left].
Qed.

(** ** Touching the parent chat *)

Lemma run_createMessage (chatId userId content : string) (role : Role)
    (reasoningContent : option string) E w :
  userId ≠ EmptyString →
  run (createMessage chatId userId content role reasoningContent) E w =
    match owned_by userId (stored_chat E (table w) chatId) with
    | None => (Throw (ChatNotFound chatId), w)
    | Some c =>
        let m := MessageItem.mk chatId (randomUUID E (draws w)) userId
                   (now E (ticks w)) (now E (2 + ticks w))
                   content reasoningContent role in
        let w1 := tick (tick (tick (draw w))) in
        match table w !! item_key E (MessageRow m) with
        | Some _ => (Throw (Store ConditionalCheckFailed), w1)
        | None =>
            (Ok m,
             set_table
               (<[(chat_pk E chatId, chat_sk E) :=
                    ChatRow (chat_set chatId None (stamp_of E w1) c)]>
                  (<[item_key E (MessageRow m) := MessageRow m]> (table w)))
               (after_stamp E w1))
        end
    end.
Proof.
  intros Hne. unfold createMessage, chat_update.
  rewrite run_bind, run_require_userId by done.
  rewrite run_bind, run_getChatForUser by done.
  destruct (owned_by userId _) as [c|] eqn:Howned; [|done].
  apply owned_by_Some in Howned as [Hchat _].
  rewrite run_bind, run_message_create. cbn zeta.
  destruct (table w !! _) as [|] eqn:Hrow; [done|].
  rewrite run_bind, run_chat_write by done. cbn [table set_table].
  cbn [item_key]. rewrite stored_chat_insert_message, Hchat.
  by rewrite stamp_of_set_table, set_table_after_stamp.
Qed.

(** C2. After a successful [createMessage] the parent chat's [updatedAt] is
    not earlier than before: it is the clock reading taken by the touch when
    the setter runs, and the stored value otherwise.  (The clock is monotone
    and the stored stamp is not ahead of it.) *)
Theorem C2_createMessage_touches_chat (E : Env) (w w' : World)
    (chatId userId content : string) (role : Role)
    (reasoningContent : option string)
    (c : ChatItem.t) (u : string) (m : MessageItem.t) :
  clock_monotone E →
  stored_chat E (table w) chatId = Some c →
  ChatItem.updatedAt c = Some u →
  str_le u (now E (ticks w)) →
  run (createMessage chatId userId content role reasoningContent) E w
  = (Ok m, w') →
  ∃ c' u',
    stored_chat E (table w') chatId = Some c' ∧
    ChatItem.updatedAt c' = Some u' ∧
    u' = (if watch_all E then now E (3 + ticks w) else u) ∧
    str_le u u'.
Proof.
  intros Hmono Hchat Hupd Hpast.
  destruct (decide (userId = EmptyString)) as [->|Hne];
    [intros H; discriminate H|].
  rewrite run_createMessage by done.
  destruct (owned_by userId _) as [c0|] eqn:Howned; [|intros H; discriminate H].
  apply owned_by_Some in Howned as [Hc0 _].
  assert (c0 = c) as -> by congruence.
  cbn zeta. destruct (table w !! _) as [|]; [intros H; discriminate H|].
  intros H. injection H as _ <-. cbn [table set_table].
  rewrite stored_chat_insert.
  unfold chat_set, stamp_of, stamped.
  cbn [ChatItem.updatedAt ticks tick draw set_table].
  rewrite Hupd.
  destruct (watch_all E); eexists _, _;
    (split; [reflexivity|]); (split; [reflexivity|]); (split; [reflexivity|]).
  - etransitivity; [exact Hpast|]. apply Hmono. lia.
  - apply str_le_refl.
Qed.

(** ** The layout of a partition *)

Lemma message_sk_lt_chronological (E : Env) (m1 m2 : MessageItem.t) :
  generated m1 → generated m2 →
  sk_lt (message_entry E m1) (message_entry E m2) ↔ chronological m1 m2.
Proof.
  intros [Hc1 Hi1] [Hc2 Hi2]. unfold sk_lt, chronological, message_entry. cbn [fst].
  rewrite !str_lt_compare, (message_sk_compare _ _ _ _ _ Hc1 Hc2 Hi1 Hi2).
  destruct (String.compare (MessageItem.createdAt m1) (MessageItem.createdAt m2))
    eqn:Hc.
  - apply str_compare_eq in Hc. split; [by right|]. by intros [?|[_ ?]].
  - split; [by left|done].
  - split; [done|]. intros [?|[Heq _]]; [done|].
    apply str_compare_eq in Heq. congruence.
Qed.

Lemma as_message_entry (E : Env) (m : MessageItem.t) :
  as_message E (message_entry E m) = Some m.
Proof.
  unfold as_message, message_entry. cbn [fst snd]. by rewrite message_sk_prefix.
Qed.

Lemma omap_as_message_entries (E : Env) (ms : list MessageItem.t) :
  omap (as_message E) (message_entry E <$> ms) = ms.
Proof.
  induction ms as [|m ms IH]; [done|].
  rewrite fmap_cons. cbn [omap list_omap]. by rewrite as_message_entry, IH.
Qed.

(** In a well-formed table a row of a chat's partition is the metadata row at
    the metadata key or a message at its own sort key. *)
Lemma partition_row_cases (E : Env) (t : Table) (chatId s : string) (it : Item) :
  wf_table E t → t !! (chat_pk E chatId, s) = Some it →
  (s = chat_sk E ∧ ∃ c, it = ChatRow c) ∨
  (∃ m, it = MessageRow m ∧ (s, it) = message_entry E m).
Proof.
  intros Hwf Hl. pose proof (Hwf _ _ Hl) as Hkey.
  pose proof (f_equal snd Hkey) as Hs. destruct it as [c|m]; cbn [snd item_key] in Hs.
  - left. eauto.
  - right. exists m. split; [done|]. unfold message_entry. by rewrite Hs.
Qed.

Lemma entries_of_messages (E : Env) (l : list (string * Item)) :
  Forall (λ x, ∃ m, x = message_entry E m) l →
  l = message_entry E <$> omap (as_message E) l.
Proof.
  induction 1 as [|x l [m ->] _ IH]; [done|].
  cbn [omap list_omap]. rewrite as_message_entry, fmap_cons. by rewrite <-IH.
Qed.

Lemma sorted_chronological (E : Env) (ms : list MessageItem.t) :
  Forall generated ms →
  StronglySorted sk_lt (message_entry E <$> ms) →
  StronglySorted chronological ms.
Proof.
  induction ms as [|m ms IH]; intros Hw Hs; [constructor|].
  apply Forall_cons in Hw as [Hm Hw]. rewrite fmap_cons in Hs.
  apply StronglySorted_inv in Hs as [Hs Hall].
  constructor; [by apply IH|].
  rewrite Forall_forall in Hall. rewrite Forall_forall in Hw.
  apply Forall_forall. intros m' Hin.
  apply (message_sk_lt_chronological E); [done|by apply Hw|].
  apply Hall. by apply list_elem_of_fmap_2.
Qed.

Lemma partition_rows_layout (E : Env) (t : Table) (chatId : string)
    (c : ChatItem.t) :
  wf_table E t →
  stored_chat E t chatId = Some c →
  partition_rows t (chat_pk E chatId)
  = (chat_sk E, ChatRow c) :: (message_entry E <$> stored_messages E t chatId).
Proof.
  intros Hwf Hchat.
  pose proof (stored_chat_row _ _ _ _ Hchat) as Hrow.
  unfold stored_messages. change (message_pk E chatId) with (chat_pk E chatId).
  pose proof (partition_rows_strictly_sorted t (chat_pk E chatId)) as Hs.
  assert (∀ s it, (s, it) ∈ partition_rows t (chat_pk E chatId) →
            (s, it) = (chat_sk E, ChatRow c) ∨
            (str_lt (chat_sk E) s ∧ ∃ m, (s, it) = message_entry E m)) as Hcases.
  { intros s it Hin%elem_of_partition_rows.
    destruct (partition_row_cases _ _ _ _ _ Hwf Hin) as [[-> _]|(m & _ & Hm)].
    - left. congruence.
    - right. split; [|by eauto].
      pose proof (f_equal fst Hm) as Hs'. cbn [fst message_entry] in Hs'.
      rewrite Hs'. apply chat_sk_lt_message_sk. }
  apply elem_of_partition_rows in Hrow.
  destruct (partition_rows t (chat_pk E chatId)) as [|[s it] l];
    [by inversion Hrow|].
  apply StronglySorted_inv in Hs as [Hs Hall]. rewrite Forall_forall in Hall.
  assert (s = chat_sk E ∧ it = ChatRow c) as [-> ->].
  { cut ((s, it) = (chat_sk E, ChatRow c)); [by intros [= -> ->]|].
    apply elem_of_cons in Hrow as [<-|Hin]; [done|].
    pose proof (Hall _ Hin) as Hlt. unfold sk_lt in Hlt. cbn [fst] in Hlt.
    destruct (Hcases s it) as [?|[Hgt _]]; [by left|done|].
    destruct (str_lt_irrefl s). by transitivity (chat_sk E). }
  cbn [omap list_omap]. unfold as_message at 1. cbn [snd].
  f_equal. apply entries_of_messages. apply Forall_forall. intros [s' it'] Hin.
  destruct (Hcases s' it') as [Heq|[_ Hm]]; [by right| |done].
  pose proof (Hall _ Hin) as Hlt. rewrite Heq in Hlt.
  by apply str_lt_irrefl in Hlt.
Qed.

(** C1, as the code has it.  The metadata row of a chat and its message rows
    carry the same partition key, the template "CHAT#" followed by the chat
    identifier put in lower case; the metadata sort key is "metadata",
    strictly below every message sort key, which is the template
    "MSG#", [createdAt], "#", [messageId] put in lower case; and the rows of
    the partition in the order of a range query are the metadata row and
    then the messages, ordered by [createdAt] and among equal timestamps by
    [messageId].  (The timestamps have the format of [toISOString] and the
    message identifiers are in lower case.) *)
Theorem C1_partition_layout (E : Env) (t : Table) (chatId : string)
    (c : ChatItem.t) :
  wf_table E t →
  stored_chat E t chatId = Some c →
  Forall generated (stored_messages E t chatId) →
  (∀ m, m ∈ stored_messages E t chatId →
        (item_key E (MessageRow m)).1 = chat_pk E chatId) ∧
  item_key E (ChatRow c) = (chat_pk E chatId, "metadata") ∧
  (plain chatId = true → chat_pk E chatId = "chat#" +:+ chatId) ∧
  (∀ createdAt messageId,
     str_lt "metadata" (message_sk E createdAt messageId) ∧
     (iso_stamp createdAt = true → plain messageId = true →
      message_sk E createdAt messageId
      = "msg#" +:+ lower_string createdAt +:+ "#" +:+ messageId)) ∧
  partition_rows t (chat_pk E chatId)
  = ("metadata", ChatRow c) :: (message_entry E <$> stored_messages E t chatId) ∧
  StronglySorted chronological (stored_messages E t chatId).
Proof.
  intros Hwf Hchat Hgenerated.
  pose proof (partition_rows_layout _ _ _ _ Hwf Hchat) as Hlayout.
  split; [|split; [|split; [|split; [|split]]]].
  - intros m [_ Hpk]%(elem_of_stored_messages_wf _ _ _ _ Hwf). exact Hpk.
  - apply stored_chat_row in Hchat. symmetry. exact (Hwf _ _ Hchat).
  - apply chat_pk_plain.
  - intros createdAt messageId.
    split; [apply (chat_sk_lt_message_sk E)|apply message_sk_generated].
  - exact Hlayout.
  - apply (sorted_chronological E); [done|].
    pose proof (partition_rows_strictly_sorted t (chat_pk E chatId)) as Hs.
    rewrite Hlayout in Hs. by apply StronglySorted_inv in Hs as [Hs _].
Qed.

(** ** updateMessage *)

Lemma run_updateMessage (chatId messageId userId content : string)
    (reasoningContent : option string) E w :
  userId ≠ EmptyString →
  run (updateMessage chatId messageId userId content reasoningContent) E w =
    match owned_by userId (stored_chat E (table w) chatId) with
    | None => (Throw (ChatNotFound chatId), w)
    | Some c =>
        match find_message messageId (message_page E (table w) chatId) with
        | None => (Throw (MessageNotFound messageId), w)
        | Some m0 =>
            let k := (message_pk E chatId,
                      message_sk E (MessageItem.createdAt m0) messageId) in
            let w1 := after_stamp E w in
            match table w !! k with
            | Some (MessageRow m) =>
                let m' := message_set chatId (MessageItem.createdAt m0) messageId
                            content reasoningContent (stamp_of E w) m in
                (Ok m',
                 set_table
                   (<[(chat_pk E chatId, chat_sk E) :=
                        ChatRow (chat_set chatId None (stamp_of E w1) c)]>
                      (<[k := MessageRow m']> (table w)))
                   (after_stamp E w1))
            | _ => (Throw (Store ConditionalCheckFailed), w1)
            end
        end
    end.
Proof.
  intros Hne. unfold updateMessage, chat_update.
  rewrite run_bind, run_require_userId by done.
  rewrite run_bind, run_getChatForUser by done.
  destruct (owned_by userId _) as [c|] eqn:Howned; [|done].
  apply owned_by_Some in Howned as [Hchat _].
  rewrite run_bind, run_message_query.
  destruct (find_message _ _) as [m0|]; [|done].
  rewrite run_bind, run_message_patch. cbn zeta.
  destruct (table w !! _) as [[|m]|]; [done| |done].
  rewrite run_bind, run_chat_write by done. cbn [table set_table].
  rewrite stored_chat_insert_message, Hchat.
  by rewrite stamp_of_set_table, set_table_after_stamp.
Qed.

(** ** The empty [userId] *)

Lemma createChat_empty (name : string) E w :
  run (createChat EmptyString name) E w = (Throw UserIdRequired, w).
Proof. reflexivity. Qed.

Lemma createMessage_empty (chatId content : string) (role : Role)
    (reasoningContent : option string) E w :
  run (createMessage chatId EmptyString content role reasoningContent) E w
  = (Throw UserIdRequired, w).
Proof. reflexivity. Qed.

Lemma updateChatName_empty (chatId name : string) E w :
  run (updateChatName chatId EmptyString name) E w = (Throw UserIdRequired, w).
Proof. reflexivity. Qed.

Lemma updateMessage_empty (chatId messageId content : string)
    (reasoningContent : option string) E w :
  run (updateMessage chatId messageId EmptyString content reasoningContent) E w
  = (Throw UserIdRequired, w).
Proof. reflexivity. Qed.

Lemma deleteChat_empty (chatId : string) E w :
  run (deleteChat chatId EmptyString) E w = (Throw UserIdRequired, w).
Proof. reflexivity. Qed.

Lemma deleteMessage_empty (chatId messageId : string) E w :
  run (deleteMessage chatId messageId EmptyString) E w = (Throw UserIdRequired, w).
Proof. reflexivity. Qed.

(** ** Invariants of the worlds the data-access layer produces *)

Lemma good_row_mono (E : Env) (n n' : nat) (row : Item) :
  n ≤ n' → good_row E n row → good_row E n' row.
Proof.
  intros Hle. destruct row as [c|m]; cbn [good_row].
  - intros Hc u Hu. destruct (Hc u Hu) as (i & Hi & ->). exists i. split; [lia|done].
  - intros (i & Hi & Hm). exists i. split; [lia|done].
Qed.

(** One lemma for every write of the entity layer: the clock does not go
    back, and the table is kept, loses a key, or gains a well-keyed row whose
    stamps are readings already taken. *)
Lemma consistent_step (E : Env) (w w' : World) :
  consistent E w →
  ticks w ≤ ticks w' →
  table w' = table w ∨
  (∃ k, table w' = delete k (table w)) ∨
  (∃ row, table w' = <[item_key E row := row]> (table w) ∧
          good_row E (ticks w') row) →
  consistent E w'.
Proof.
  intros [Hwf Hgood] Hle Htable.
  assert (map_Forall (λ _ row, good_row E (ticks w') row) (table w)) as Hgood'.
  { intros k row Hrow. eapply good_row_mono; [exact Hle|]. by eapply Hgood. }
  unfold consistent.
  destruct Htable as [Ht|[[k Ht]|(row & Ht & Hrow)]]; rewrite Ht; split;
    try done; try (by apply map_Forall_delete); by apply map_Forall_insert_2.
Qed.

Lemma ticks_after_stamp (E : Env) (w : World) : ticks w ≤ ticks (after_stamp E w).
Proof. unfold after_stamp. destruct (watch_all E); cbn; lia. Qed.

Lemma stamp_of_after_stamp (E : Env) (w : World) (u : string) :
  stamp_of E w = Some u → ∃ i, i < ticks (after_stamp E w) ∧ u = now E i.
Proof.
  unfold stamp_of, after_stamp. destruct (watch_all E); [|done].
  intros [= <-]. exists (ticks w). split; [cbn; lia|done].
Qed.

Lemma preserves_ret {A} (a : A) : preserves (mret a).
Proof. by intros E w Hw. Qed.

Lemma preserves_throw {A} (e : Error) : preserves (throw e : M A).
Proof. by intros E w Hw. Qed.

Lemma preserves_bind {A B} (m : M A) (f : A → M B) :
  preserves m → (∀ a, preserves (f a)) → preserves (m ≫= f).
Proof.
  intros Hm Hf E w Hw. rewrite run_bind.
  specialize (Hm E w Hw). destruct (run m E w) as [[a|e] w1]; [|done].
  by apply Hf.
Qed.

Lemma preserves_for_of {A} (xs : list A) (f : A → M unit) :
  (∀ x, preserves (f x)) → preserves (for_of xs f).
Proof.
  intros Hf. induction xs as [|x xs IH]; cbn [for_of].
  - apply preserves_ret.
  - apply preserves_bind; [apply Hf|by intros _].
Qed.

Lemma preserves_require_userId (userId : string) : preserves (require_userId userId).
Proof.
  unfold require_userId.
  destruct (String.eqb userId EmptyString); [apply preserves_throw|apply preserves_ret].
Qed.

Lemma preserves_chat_get (chatId : string) : preserves (chat_get chatId).
Proof. by intros E w Hw. Qed.

Lemma preserves_message_query (chatId : string) : preserves (message_query chatId).
Proof. by intros E w Hw. Qed.

Lemma preserves_chat_delete (chatId : string) : preserves (chat_delete chatId).
Proof.
  intros E w Hw. rewrite run_chat_delete.
  apply (consistent_step E w); [done|done|]. right; left. by eexists.
Qed.

Lemma preserves_message_delete (chatId createdAt messageId : string) :
  preserves (message_delete chatId createdAt messageId).
Proof.
  intros E w Hw. rewrite run_message_delete.
  apply (consistent_step E w); [done|done|]. right; left. by eexists.
Qed.

Lemma preserves_chat_create (userId name : string) :
  preserves (chat_create userId name).
Proof.
  intros E w Hw. destruct (validate_name name) eqn:Hname.
  - rewrite run_chat_create by done. cbn zeta.
    destruct (table w !! _).
    + apply (consistent_step E w); [done|cbn; lia|by left].
    + apply (consistent_step E w); [done|cbn; lia|]. right; right.
      eexists. split; [reflexivity|]. cbn. intros u [= <-].
      exists (2 + ticks w). split; [lia|done].
  - rewrite run_chat_create_invalid by done.
    apply (consistent_step E w); [done|cbn; lia|by left].
Qed.

Lemma preserves_message_create (chatId userId content : string) (role : Role)
    (reasoningContent : option string) :
  preserves (message_create chatId userId content role reasoningContent).
Proof.
  intros E w Hw. rewrite run_message_create. cbn zeta.
  destruct (table w !! _).
  - apply (consistent_step E w); [done|cbn; lia|by left].
  - apply (consistent_step E w); [done|cbn; lia|]. right; right.
    eexists. split; [reflexivity|]. cbn.
    exists (ticks w). split; [lia|done].
Qed.

Lemma preserves_chat_write (guarded : bool) (chatId : string) (name : option string) :
  preserves (chat_write guarded chatId name).
Proof.
  intros E w Hw. destruct (from_option validate_name true name) eqn:Hname.
  - rewrite run_chat_write by done.
    pose proof (ticks_after_stamp E w) as Hticks.
    destruct (stored_chat E (table w) chatId) as [c|] eqn:Hchat.
    + apply stored_chat_row in Hchat.
      apply (consistent_step E w); [done|done|]. right; right.
      exists (ChatRow (chat_set chatId name (stamp_of E w) c)).
      destruct Hw as [Hwf Hgood]. split; [reflexivity|].
      cbn [good_row chat_set ChatItem.updatedAt ticks set_table snd].
      intros u Hu. unfold stamped in Hu.
      destruct (stamp_of E w) as [u'|] eqn:Hstamp.
      * injection Hu as <-. by apply stamp_of_after_stamp.
      * destruct (Hgood _ _ Hchat u Hu) as (i & Hi & ->).
        exists i. split; [lia|done].
    + destruct guarded.
      * apply (consistent_step E w);
          [done|exact Hticks|left; apply table_after_stamp].
      * apply (consistent_step E w); [done|done|]. right; right.
        exists (ChatRow (ChatItem.mk chatId None name None (stamp_of E w))).
        split; [reflexivity|].
        cbn [good_row ChatItem.updatedAt ticks set_table snd].
        intros u Hu. by apply stamp_of_after_stamp.
  - destruct name as [n|]; [|done]. cbn in Hname.
    unfold chat_write, check_name. rewrite Hname. by run_steps.
Qed.

(** A patch keeps the invariant when the [createdAt] of its key is a clock
    reading already taken, as the one of a message the query returned is. *)
Lemma consistent_message_patch (chatId createdAt messageId content : string)
    (reasoningContent : option string) (E : Env) (w : World) :
  consistent E w →
  (∃ i, i < ticks w ∧ createdAt = now E i) →
  consistent E
    (run (message_patch chatId createdAt messageId content reasoningContent) E w).2.
Proof.
  intros Hw (i & Hi & ->). rewrite run_message_patch.
  pose proof (ticks_after_stamp E w) as Hticks.
  destruct (table w !! _) as [[c|m]|] eqn:Hrow;
    try (apply (consistent_step E w);
           [done|exact Hticks|left; apply table_after_stamp]).
  apply (consistent_step E w); [done|done|]. right; right.
  exists (MessageRow (message_set chatId (now E i) messageId content
                        reasoningContent (stamp_of E w) m)).
  split; [reflexivity|].
  cbn [good_row message_set MessageItem.createdAt ticks set_table snd].
  exists i. split; [lia|done].
Qed.

Create HintDb preserves discriminated.
#[local] Hint Resolve preserves_ret preserves_throw preserves_require_userId
  preserves_chat_get preserves_message_query preserves_chat_delete
  preserves_message_delete preserves_chat_create preserves_message_create
  preserves_chat_write : preserves.

Ltac preserves_steps :=
  repeat first
    [ solve [auto with preserves]
    | apply preserves_for_of; intros ?
    | match goal with |- preserves (match ?x with _ => _ end) => destruct x end
    | apply preserves_bind; [|intros ?] ].

Lemma preserves_getChatForUser (chatId userId : string) :
  preserves (getChatForUser chatId userId).
Proof. unfold getChatForUser. preserves_steps. Qed.

#[local] Hint Resolve preserves_getChatForUser : preserves.

Lemma preserves_createChat (userId name : string) :
  preserves (createChat userId name).
Proof. unfold createChat. preserves_steps. Qed.

Lemma preserves_createMessage (chatId userId content : string) (role : Role)
    (reasoningContent : option string) :
  preserves (createMessage chatId userId content role reasoningContent).
Proof. unfold createMessage, chat_update. preserves_steps. Qed.

Lemma preserves_updateChatName (chatId userId name : string) :
  preserves (updateChatName chatId userId name).
Proof. unfold updateChatName, chat_patch. preserves_steps. Qed.

Lemma preserves_updateMessage (chatId messageId userId content : string)
    (reasoningContent : option string) :
  preserves (updateMessage chatId messageId userId content reasoningContent).
Proof.
  unfold updateMessage.
  apply preserves_bind; [auto with preserves|intros _].
  apply preserves_bind; [auto with preserves|intros [c|]];
    [|apply preserves_throw].
  intros E w Hw. rewrite run_bind, run_message_query.
  destruct (find_message _ _) as [m0|] eqn:Hfind; [|done].
  apply find_message_Some in Hfind as [Hin _].
  apply elem_of_message_page, elem_of_stored_messages in Hin as (s & Hrow & _).
  pose proof (consistent_message_patch chatId (MessageItem.createdAt m0)
                messageId content reasoningContent E w Hw) as Hpatch.
  rewrite run_bind.
  destruct (run (message_patch _ _ _ _ _) E w) as [[m'|e] w1].
  - cbn [snd] in Hpatch.
    apply (preserves_bind (chat_update chatId None) (λ _, mret m'));
      [apply preserves_chat_write|intros _; apply preserves_ret|].
    apply Hpatch. destruct Hw as [_ Hgood]. exact (Hgood _ _ Hrow).
  - apply Hpatch. destruct Hw as [_ Hgood]. exact (Hgood _ _ Hrow).
Qed.

Lemma preserves_deleteChat (chatId userId : string) :
  preserves (deleteChat chatId userId).
Proof. unfold deleteChat. preserves_steps. Qed.

Lemma preserves_deleteMessage (chatId messageId userId : string) :
  preserves (deleteMessage chatId messageId userId).
Proof. unfold deleteMessage, chat_patch. preserves_steps. Qed.

Lemma consistent_empty (E : Env) : consistent E empty_world.
Proof. split; apply map_Forall_empty. Qed.

Lemma reachable_consistent (E : Env) (w : World) :
  reachable E w → consistent E w.
Proof.
  induction 1 as [|w call _ IH]; [apply consistent_empty|].
  destruct call; cbn [step].
  - by apply preserves_createChat.
  - by apply preserves_createMessage.
  - by apply preserves_updateChatName.
  - by apply preserves_updateMessage.
  - by apply preserves_deleteChat.
  - by apply preserves_deleteMessage.
Qed.

(** What the invariant gives the statements. *)

Lemma consistent_wf (E : Env) (w : World) : consistent E w → wf_table E (table w).
Proof. by intros [? _]. Qed.

Lemma consistent_stamp_not_ahead (E : Env) (w : World) (chatId : string)
    (c : ChatItem.t) (u : string) :
  clock_monotone E → consistent E w →
  stored_chat E (table w) chatId = Some c → ChatItem.updatedAt c = Some u →
  str_le u (now E (ticks w)).
Proof.
  intros Hmono [_ Hgood] Hchat%stored_chat_row Hu.
  destruct (Hgood _ _ Hchat u Hu) as (i & Hi & ->). apply Hmono. lia.
Qed.

(** ** One call at a time *)

Lemma touch_stamp_of (E : Env) (w w1 : World) :
  ticks w ≤ ticks w1 → touch_stamp E w (stamp_of E w1).
Proof.
  intros Hle. unfold touch_stamp, stamp_of.
  destruct (watch_all E); [right; by eauto|by left].
Qed.

Lemma draws_after_stamp (E : Env) (w : World) : draws (after_stamp E w) = draws w.
Proof. unfold after_stamp. by destruct (watch_all E). Qed.

(** The table a call leaves, method by method. *)
Lemma step_table (E : Env) (w : World) (call : Call) :
  let t := table w in
  let t' := table (step E call w) in
  t' = t ∨
  match call with
  | CreateChat userId name =>
      ∃ c, (userId ≠ EmptyString ∧ draws (step E call w) = S (draws w)) ∧
           validate_name name = true ∧
           c = ChatItem.mk (randomUUID E (draws w)) (Some userId) (Some name)
                 (Some (now E (ticks w))) (Some (now E (2 + ticks w))) ∧
           t !! item_key E (ChatRow c) = None ∧
           t' = <[item_key E (ChatRow c) := ChatRow c]> t
  | CreateMessage chatId userId content role reasoningContent =>
      ∃ c m stamp,
           (touch_stamp E w stamp ∧ draws (step E call w) = S (draws w)) ∧
           stored_chat E t chatId = Some c ∧ ChatItem.userId c = Some userId ∧
           m = MessageItem.mk chatId (randomUUID E (draws w)) userId
                 (now E (ticks w)) (now E (2 + ticks w))
                 content reasoningContent role ∧
           t !! item_key E (MessageRow m) = None ∧
           t' = <[(chat_pk E chatId, chat_sk E) :=
                    ChatRow (chat_set chatId None stamp c)]>
                  (<[item_key E (MessageRow m) := MessageRow m]> t)
  | UpdateChatName chatId userId name =>
      ∃ c stamp,
           touch_stamp E w stamp ∧
           stored_chat E t chatId = Some c ∧ ChatItem.userId c = Some userId ∧
           validate_name name = true ∧
           t' = <[(chat_pk E chatId, chat_sk E) :=
                    ChatRow (chat_set chatId (Some name) stamp c)]> t
  | UpdateMessage chatId messageId userId content reasoningContent =>
      ∃ c m0 m stamp stamp',
           touch_stamp E w stamp' ∧
           stored_chat E t chatId = Some c ∧ ChatItem.userId c = Some userId ∧
           find_message messageId (message_page E t chatId) = Some m0 ∧
           t !! (message_pk E chatId,
                 message_sk E (MessageItem.createdAt m0) messageId)
           = Some (MessageRow m) ∧
           t' = <[(chat_pk E chatId, chat_sk E) :=
                    ChatRow (chat_set chatId None stamp' c)]>
                  (<[(message_pk E chatId,
                      message_sk E (MessageItem.createdAt m0) messageId) :=
                       MessageRow (message_set chatId (MessageItem.createdAt m0)
                                     messageId content reasoningContent stamp m)]> t)
  | DeleteChat chatId userId =>
      ∃ c, stored_chat E t chatId = Some c ∧ ChatItem.userId c = Some userId ∧
           t' = delete (chat_pk E chatId, chat_sk E)
                  (delete_messages E chatId (message_page E t chatId) t)
  | DeleteMessage chatId messageId userId =>
      ∃ m, find_message messageId (message_page E t chatId) = Some m ∧
           MessageItem.userId m = userId ∧
           let t1 := delete (message_pk E chatId,
                             message_sk E (MessageItem.createdAt m) messageId) t in
           match stored_chat E t chatId with
           | Some c =>
               ∃ stamp, touch_stamp E w stamp ∧
                        t' = <[(chat_pk E chatId, chat_sk E) :=
                                 ChatRow (chat_set chatId None stamp c)]> t1
           | None => t' = t1
           end
  end.
Proof.
  cbn zeta. destruct call; cbn [step].
  - destruct (decide (userId = EmptyString)) as [->|Hne];
      [left; by rewrite createChat_empty|].
    rewrite run_createChat by done.
    destruct (validate_name name) eqn:Hname; [|by left]. cbn zeta.
    destruct (table w !! _) eqn:Hfresh; [by left|].
    right. eexists. by repeat split.
  - destruct (decide (userId = EmptyString)) as [->|Hne];
      [left; by rewrite createMessage_empty|].
    rewrite run_createMessage by done.
    destruct (owned_by userId _) as [c|] eqn:Howned; [|by left].
    apply owned_by_Some in Howned as [Hchat Howner]. cbn zeta.
    destruct (table w !! _) eqn:Hfresh; [by left|].
    right. eexists c, _, _. split; [split|by repeat split].
    + apply touch_stamp_of. cbn. lia.
    + cbn [snd set_table draws]. by rewrite draws_after_stamp.
  - destruct (decide (userId = EmptyString)) as [->|Hne];
      [left; by rewrite updateChatName_empty|].
    rewrite run_updateChatName by done.
    destruct (owned_by userId _) as [c|] eqn:Howned; [|by left].
    apply owned_by_Some in Howned as [Hchat Howner].
    destruct (validate_name name) eqn:Hname; [|by left].
    rewrite Hchat.
    right. eexists c, _. split; [by apply touch_stamp_of|by repeat split].
  - destruct (decide (userId = EmptyString)) as [->|Hne];
      [left; by rewrite updateMessage_empty|].
    rewrite run_updateMessage by done.
    destruct (owned_by userId _) as [c|] eqn:Howned; [|by left].
    apply owned_by_Some in Howned as [Hchat Howner].
    destruct (find_message _ _) as [m0|] eqn:Hfind; [|by left]. cbn zeta.
    destruct (table w !! _) as [[|m]|] eqn:Hrow;
      try (left; apply table_after_stamp).
    right. eexists c, m0, m, _, _.
    split; [apply touch_stamp_of, ticks_after_stamp|by repeat split].
  - destruct (decide (userId = EmptyString)) as [->|Hne];
      [left; by rewrite deleteChat_empty|].
    rewrite run_deleteChat by done.
    destruct (owned_by userId _) as [c|] eqn:Howned; [|by left].
    apply owned_by_Some in Howned as [Hchat Howner].
    right. exists c. by repeat split.
  - destruct (decide (userId = EmptyString)) as [->|Hne];
      [left; by rewrite deleteMessage_empty|].
    rewrite run_deleteMessage by done.
    destruct (find_message _ _) as [m|] eqn:Hfind; [|by left].
    destruct (String.eqb_spec (MessageItem.userId m) userId) as [Hauthor|];
      [|by left].
    right. exists m. split; [done|]. split; [done|]. cbn zeta.
    destruct (stored_chat E (table w) chatId) as [c|].
    + eexists. split; [by apply touch_stamp_of|done].
    + cbn [snd]. apply table_after_stamp.
Qed.

Lemma step_draws_le (E : Env) (w : World) (call : Call) :
  draws w ≤ draws (step E call w).
Proof.
  destruct call; cbn [step].
  - destruct (decide (userId = EmptyString)) as [->|Hne];
      [by rewrite createChat_empty|].
    rewrite run_createChat by done.
    destruct (validate_name name); cbn zeta; [destruct (table w !! _)|];
      cbn; lia.
  - destruct (decide (userId = EmptyString)) as [->|Hne];
      [by rewrite createMessage_empty|].
    rewrite run_createMessage by done.
    destruct (owned_by userId _); cbn zeta; [destruct (table w !! _)|];
      cbn [snd set_table draws]; rewrite ?draws_after_stamp; cbn; lia.
  - destruct (decide (userId = EmptyString)) as [->|Hne];
      [by rewrite updateChatName_empty|].
    rewrite run_updateChatName by done.
    destruct (owned_by userId _);
      [destruct (validate_name name);
         [destruct (stored_chat E (table w) chatId)|]|];
      cbn [snd set_table draws]; rewrite ?draws_after_stamp; lia.
  - destruct (decide (userId = EmptyString)) as [->|Hne];
      [by rewrite updateMessage_empty|].
    rewrite run_updateMessage by done.
    destruct (owned_by userId _); [|done].
    destruct (find_message _ _); [|done]. cbn zeta.
    destruct (table w !! _) as [[|]|];
      cbn [snd set_table draws]; rewrite ?draws_after_stamp; lia.
  - destruct (decide (userId = EmptyString)) as [->|Hne];
      [by rewrite deleteChat_empty|].
    rewrite run_deleteChat by done. by destruct (owned_by userId _).
  - destruct (decide (userId = EmptyString)) as [->|Hne];
      [by rewrite deleteMessage_empty|].
    rewrite run_deleteMessage by done.
    destruct (find_message _ _); [|done].
    destruct (String.eqb _ userId); [|done]. cbn zeta.
    destruct (stored_chat E (table w) chatId);
      cbn [snd set_table draws]; rewrite ?draws_after_stamp; cbn; lia.
Qed.

(** ** Chat identifiers *)

(** A call keeps every row in the partition of an identifier drawn before:
    it writes under the key of a chat that is stored, or, creating a chat,
    under the key of the identifier it draws. *)
Lemma drawn_partitions_from (E : Env) (w w' : World) :
  drawn_partitions E w →
  draws w ≤ draws w' →
  (∀ k it, table w' !! k = Some it →
           (∃ k0 it0, table w !! k0 = Some it0 ∧ k0.1 = k.1) ∨
           (draws w < draws w' ∧ k.1 = chat_pk E (randomUUID E (draws w)))) →
  drawn_partitions E w'.
Proof.
  intros Hdrawn Hle Hrows k it Hrow.
  destruct (Hrows k it Hrow) as [(k0 & it0 & Hrow0 & <-)|[Hlt ->]].
  - destruct (Hdrawn k0 it0 Hrow0) as (i & Hi & Hk). exists i. split; [lia|done].
  - by exists (draws w).
Qed.

Lemma step_drawn_partitions (E : Env) (w : World) (call : Call) :
  drawn_partitions E w → drawn_partitions E (step E call w).
Proof.
  intros Hdrawn. pose proof (step_draws_le E w call) as Hd.
  apply (drawn_partitions_from E w); [done|done|].
  destruct (step_table E w call) as [->|Hstep]; [by eauto|].
  destruct call.
  - destruct Hstep as (c & [_ Hdraws] & _ & -> & _ & ->).
    intros k it [[<- _]|[_ Hrow]]%lookup_insert_Some; [|by eauto].
    right. split; [lia|done].
  - destruct Hstep as (c & m & stamp & _ & Hchat%stored_chat_row & _ & -> & _ & ->).
    intros k it [[<- _]|[_ [[<- _]|[_ Hrow]]%lookup_insert_Some]]%lookup_insert_Some;
      by eauto.
  - destruct Hstep as (c & stamp & _ & Hchat%stored_chat_row & _ & _ & ->).
    intros k it [[<- _]|[_ Hrow]]%lookup_insert_Some; by eauto.
  - destruct Hstep
      as (c & m0 & m & stamp & stamp' & _ & Hchat%stored_chat_row & _ & _ & _ & ->).
    intros k it [[<- _]|[_ [[<- _]|[_ Hrow]]%lookup_insert_Some]]%lookup_insert_Some;
      by eauto.
  - destruct Hstep as (c & _ & _ & ->).
    intros k it [_ Hrow]%lookup_delete_Some.
    apply lookup_delete_messages_Some in Hrow as [Hrow _]. by eauto.
  - destruct Hstep as (m & _ & _ & Hstep). cbn zeta in Hstep.
    destruct (stored_chat E (table w) chatId) as [c|] eqn:Hchat.
    + apply stored_chat_row in Hchat. destruct Hstep as (stamp & _ & ->).
      intros k it [[<- _]|[_ [_ Hrow]%lookup_delete_Some]]%lookup_insert_Some;
        by eauto.
    + rewrite Hstep. intros k it [_ Hrow]%lookup_delete_Some. by eauto.
Qed.

Lemma reachable_drawn_partitions (E : Env) (w : World) :
  reachable E w → drawn_partitions E w.
Proof.
  induction 1 as [|w call _ IH]; [|by apply step_drawn_partitions].
  intros k it. change (table empty_world) with (∅ : Table).
  by rewrite lookup_empty.
Qed.

(** An identifier that is new leaves its whole partition empty. *)
Lemma fresh_partition_empty (E : Env) (w : World) (s : string) :
  drawn_partitions E w → next_id_fresh E w →
  table w !! (chat_pk E (randomUUID E (draws w)), s) = None.
Proof.
  intros Hdrawn Hfresh.
  destruct (table w !! _) as [it|] eqn:Hrow; [|done].
  destruct (Hdrawn _ _ Hrow) as (i & Hi & Hk). cbn [fst] in Hk.
  by destruct (Hfresh i Hi).
Qed.

(** C3, as the code has it.  In a store the methods have produced, and with
    a generator whose next identifier is new (also when case is disregarded),
    [createChat] with a non-empty [userId] and a name of 1 to 100 UTF-16 code
    units returns and stores a chat with that name and owner whose [chatId]
    is the identifier drawn by the call; no row was stored in the partition
    of that identifier and no stored chat carried it.  Its [createdAt] is the
    first clock reading of the call and its [updatedAt] the third: the two
    are equal exactly when the clock did not move in between, and
    [createdAt] is not later than [updatedAt] on a monotone clock. *)
Theorem C3_createChat_fresh_chat (E : Env) (w : World) (userId name : string) :
  reachable E w →
  next_id_fresh E w →
  userId ≠ EmptyString →
  1 ≤ utf16_length name ≤ 100 →
  ∃ c w',
    run (createChat userId name) E w = (Ok c, w') ∧
    ChatItem.name c = Some name ∧
    ChatItem.userId c = Some userId ∧
    ChatItem.chatId c = randomUUID E (draws w) ∧
    (∀ s, table w !! (chat_pk E (ChatItem.chatId c), s) = None) ∧
    ¬ chat_exists (table w) (ChatItem.chatId c) ∧
    stored_chat E (table w') (ChatItem.chatId c) = Some c ∧
    ChatItem.createdAt c = Some (now E (ticks w)) ∧
    ChatItem.updatedAt c = Some (now E (2 + ticks w)) ∧
    (ChatItem.createdAt c = ChatItem.updatedAt c ↔
     now E (ticks w) = now E (2 + ticks w)) ∧
    (clock_monotone E → str_le (now E (ticks w)) (now E (2 + ticks w))).
Proof.
  intros Hreach Hfresh Hne Hname. apply validate_name_spec in Hname.
  pose proof (reachable_drawn_partitions E w Hreach) as Hdrawn.
  pose proof (consistent_wf E w (reachable_consistent E w Hreach)) as Hwf.
  rewrite run_createChat, Hname by done. cbn zeta.
  cbn [item_key ChatItem.chatId].
  rewrite (fresh_partition_empty E w (chat_sk E) Hdrawn Hfresh).
  eexists _, _. split; [reflexivity|]. cbn [ChatItem.name ChatItem.userId
    ChatItem.chatId ChatItem.createdAt ChatItem.updatedAt table set_table].
  repeat (split; [done|]).
  split; [intros s; by apply fresh_partition_empty|].
  split.
  { intros (k & c0 & Hrow & Hid).
    pose proof (Hwf _ _ Hrow) as Hk. cbn [item_key] in Hk. rewrite Hid in Hk.
    rewrite Hk in Hrow.
    by rewrite (fresh_partition_empty E w (chat_sk E) Hdrawn Hfresh) in Hrow. }
  split; [apply stored_chat_insert|]. repeat (split; [done|]).
  split; [split; [by intros [= ->]|by intros ->]|].
  intros Hmono. apply Hmono. lia.
Qed.

(** ** Message identifiers *)

Lemma ids_ok_sub (E : Env) (d d' : nat) (t t' : Table) :
  d ≤ d' →
  (∀ k m, t' !! k = Some (MessageRow m) → t !! k = Some (MessageRow m)) →
  ids_ok E d t → ids_ok E d' t'.
Proof.
  intros Hd Hsub [Hdrawn Hdistinct]. split.
  - intros k m Hrow%Hsub. destruct (Hdrawn _ _ Hrow) as (i & Hi & Hid).
    exists i. split; [lia|done].
  - intros k1 k2 m1 m2 H1%Hsub H2%Hsub. by apply Hdistinct.
Qed.

Lemma ids_ok_insert_new (E : Env) (d : nat) (t : Table) (k : Key)
    (m : MessageItem.t) :
  Inj (=) (=) (randomUUID E) →
  MessageItem.messageId m = randomUUID E d →
  ids_ok E d t → ids_ok E (S d) (<[k := MessageRow m]> t).
Proof.
  intros Hinj Hid [Hdrawn Hdistinct]. split.
  - intros k0 m0 [[_ [= <-]]|[_ Hrow]]%lookup_insert_Some.
    + exists d. split; [lia|done].
    + destruct (Hdrawn _ _ Hrow) as (i & Hi & Hid0). exists i. split; [lia|done].
  - intros k1 k2 m1 m2
      [[<- [= <-]]|[Hk1 H1]]%lookup_insert_Some
      [[<- [= <-]]|[Hk2 H2]]%lookup_insert_Some Heq; try done.
    + destruct (Hdrawn _ _ H2) as (i & Hi & Hid2).
      rewrite Hid, Hid2 in Heq. apply Hinj in Heq. lia.
    + destruct (Hdrawn _ _ H1) as (i & Hi & Hid1).
      rewrite Hid, Hid1 in Heq. apply Hinj in Heq. lia.
    + by eapply Hdistinct.
Qed.

Lemma ids_ok_rewrite (E : Env) (d : nat) (t : Table) (k : Key)
    (m m' : MessageItem.t) :
  t !! k = Some (MessageRow m) →
  MessageItem.messageId m' = MessageItem.messageId m →
  ids_ok E d t → ids_ok E d (<[k := MessageRow m']> t).
Proof.
  intros Hm Hid [Hdrawn Hdistinct]. split.
  - intros k0 m0 [[_ [= <-]]|[_ Hrow]]%lookup_insert_Some.
    + rewrite Hid. by eapply Hdrawn.
    + by eapply Hdrawn.
  - intros k1 k2 m1 m2
      [[<- [= <-]]|[Hk1 H1]]%lookup_insert_Some
      [[<- [= <-]]|[Hk2 H2]]%lookup_insert_Some Heq; try done.
    + rewrite Hid in Heq. by eapply Hdistinct.
    + rewrite Hid in Heq. by eapply Hdistinct.
    + by eapply Hdistinct.
Qed.

(** The message a search of the page returned is the row the patch and the
    delete then address. *)
Lemma found_message_row (E : Env) (t : Table) (chatId messageId : string)
    (m0 : MessageItem.t) :
  wf_table E t →
  find_message messageId (message_page E t chatId) = Some m0 →
  MessageItem.messageId m0 = messageId ∧
  m0 ∈ stored_messages E t chatId ∧
  t !! (message_pk E chatId, message_sk E (MessageItem.createdAt m0) messageId)
  = Some (MessageRow m0).
Proof.
  intros Hwf [Hin <-]%find_message_Some.
  apply elem_of_message_page in Hin.
  split; [done|]. split; [done|].
  by destruct (stored_message_key E t chatId m0 Hwf Hin).
Qed.

Lemma ids_ok_step (E : Env) (w : World) (call : Call) :
  Inj (=) (=) (randomUUID E) →
  wf_table E (table w) →
  ids_ok E (draws w) (table w) →
  ids_ok E (draws (step E call w)) (table (step E call w)).
Proof.
  intros Hinj Hwf Hok. pose proof (step_draws_le E w call) as Hd.
  destruct (step_table E w call) as [->|Hstep];
    [by apply (ids_ok_sub E (draws w) _ (table w))|].
  destruct call.
  - destruct Hstep as (c & _ & _ & _ & _ & ->).
    apply (ids_ok_sub E (draws w) _ (table w)); [done| |done].
    by intros k m [[_ [=]]|[_ Hrow]]%lookup_insert_Some.
  - destruct Hstep as (c & m & stamp & [_ Hdraws] & _ & _ & Hm & _ & ->).
    rewrite Hdraws.
    apply (ids_ok_sub E (S (draws w)) _
             (<[item_key E (MessageRow m) := MessageRow m]> (table w)));
      [done| |apply ids_ok_insert_new; [done|by subst m|done]].
    by intros k m1 [[_ [=]]|[_ Hrow]]%lookup_insert_Some.
  - destruct Hstep as (c & stamp & _ & _ & _ & _ & ->).
    apply (ids_ok_sub E (draws w) _ (table w)); [done| |done].
    by intros k m [[_ [=]]|[_ Hrow]]%lookup_insert_Some.
  - destruct Hstep as (c & m0 & m & stamp & stamp' & _ & _ & _ & Hfind & Hrow & ->).
    destruct (found_message_row E _ _ _ _ Hwf Hfind) as (Hid & _ & Hrow0).
    rewrite Hrow0 in Hrow. injection Hrow as <-.
    apply (ids_ok_sub E (draws w) _
             (<[(message_pk E chatId,
                 message_sk E (MessageItem.createdAt m0) messageId)
                := MessageRow (message_set chatId (MessageItem.createdAt m0)
                                 messageId content reasoningContent stamp m0)]>
                (table w)));
      [done| |by apply (ids_ok_rewrite E _ _ _ m0)].
    by intros k m1 [[_ [=]]|[_ Hrow1]]%lookup_insert_Some.
  - destruct Hstep as (c & _ & _ & ->).
    apply (ids_ok_sub E (draws w) _ (table w)); [done| |done].
    intros k m [_ Hrow]%lookup_delete_Some.
    by apply lookup_delete_messages_Some in Hrow as [Hrow _].
  - destruct Hstep as (m & _ & _ & Hstep). cbn zeta in Hstep.
    apply (ids_ok_sub E (draws w) _ (table w)); [done| |done].
    destruct (stored_chat E (table w) chatId) as [c|].
    + destruct Hstep as (stamp & _ & ->).
      intros k m1 [[_ [=]]|[_ Hrow]]%lookup_insert_Some.
      by apply lookup_delete_Some in Hrow as [_ Hrow].
    + rewrite Hstep. by intros k m1 [_ Hrow]%lookup_delete_Some.
Qed.

Lemma reachable_ids_ok (E : Env) (w : World) :
  Inj (=) (=) (randomUUID E) → reachable E w → ids_ok E (draws w) (table w).
Proof.
  intros Hinj. induction 1 as [|w call Hreach IH].
  - split; intros *; change (table empty_world) with (∅ : Table);
      by rewrite lookup_empty.
  - apply ids_ok_step; [done| |done].
    by apply consistent_wf, reachable_consistent.
Qed.

Lemma NoDup_omap_inj {A B} (f : A → option B) (l : list A) :
  NoDup l →
  (∀ x y b, x ∈ l → y ∈ l → f x = Some b → f y = Some b → x = y) →
  NoDup (omap f l).
Proof.
  induction 1 as [|x l Hx _ IH]; intros Hinj; [constructor|].
  cbn [omap list_omap]. destruct (f x) as [b|] eqn:Hfx.
  - constructor.
    + intros (y & Hy & Hfy)%list_elem_of_omap.
      destruct Hx. rewrite (Hinj x y b); [done|by left|by right|done|done].
    + apply IH. intros y z b' Hy Hz. apply Hinj; by right.
  - apply IH. intros y z b' Hy Hz. apply Hinj; by right.
Qed.

Lemma message_ids_NoDup (E : Env) (w : World) (chatId : string) :
  Inj (=) (=) (randomUUID E) →
  reachable E w →
  NoDup (MessageItem.messageId <$> stored_messages E (table w) chatId).
Proof.
  intros Hinj Hreach.
  pose proof (reachable_ids_ok _ _ Hinj Hreach) as [_ Hdistinct].
  pose proof (consistent_wf _ _ (reachable_consistent _ _ Hreach)) as Hwf.
  apply NoDup_fmap_2_strong.
  - intros m1 m2 [H1 _]%(elem_of_stored_messages_wf _ _ _ _ Hwf)
      [H2 _]%(elem_of_stored_messages_wf _ _ _ _ Hwf) Heq.
    pose proof (Hdistinct _ _ _ _ H1 H2 Heq) as Hk.
    rewrite Hk, H2 in H1. by injection H1.
  - unfold stored_messages. apply NoDup_omap_inj.
    + eapply NoDup_fmap_1, partition_rows_NoDup.
    + intros [s1 it1] [s2 it2] m H1%elem_of_partition_rows
        H2%elem_of_partition_rows Hm1 Hm2.
      unfold as_message in Hm1, Hm2. cbn [fst snd] in Hm1, Hm2.
      destruct it1 as [|m1]; [done|]. destruct it2 as [|m2]; [done|].
      destruct (String.prefix (message_sk_begins E) s1); [|done].
      destruct (String.prefix (message_sk_begins E) s2); [|done].
      injection Hm1 as ->. injection Hm2 as ->.
      pose proof (Hwf _ _ H1) as Hk1. pose proof (Hwf _ _ H2) as Hk2.
      congruence.
Qed.

(** C7. When none of the messages of the partition that carry the identifier
    was stored with the caller's [userId] (there is no such message, or its
    author is someone else), [deleteMessage] throws the not-found error and
    leaves the store as it was.  Where no two messages of the partition carry
    one identifier this is the case of every stored message whose [userId] is
    not the caller's; and it is so in the worlds the data-access layer
    produces with a generator that does not repeat an identifier. *)
Theorem C7_deleteMessage_non_author_or_missing (E : Env) (w : World)
    (chatId userId : string) :
  userId ≠ EmptyString →
  (∀ messageId,
        (∀ m, m ∈ stored_messages E (table w) chatId →
              MessageItem.messageId m = messageId →
              MessageItem.userId m ≠ userId) →
        run (deleteMessage chatId messageId userId) E w
        = (Throw (MessageNotFoundOrDenied messageId), w)) ∧
  (∀ m, NoDup (MessageItem.messageId <$> stored_messages E (table w) chatId) →
        m ∈ stored_messages E (table w) chatId →
        MessageItem.userId m ≠ userId →
        run (deleteMessage chatId (MessageItem.messageId m) userId) E w
        = (Throw (MessageNotFoundOrDenied (MessageItem.messageId m)), w)) ∧
  (reachable E w → Inj (=) (=) (randomUUID E) →
   ∀ m, m ∈ stored_messages E (table w) chatId →
        MessageItem.userId m ≠ userId →
        run (deleteMessage chatId (MessageItem.messageId m) userId) E w
        = (Throw (MessageNotFoundOrDenied (MessageItem.messageId m)), w)) ∧
  (∀ messageId,
        (∀ m, m ∈ stored_messages E (table w) chatId →
              MessageItem.messageId m ≠ messageId) →
        run (deleteMessage chatId messageId userId) E w
        = (Throw (MessageNotFoundOrDenied messageId), w)) ∧
  (∀ messageId, is_NotFound (MessageNotFoundOrDenied messageId) = true).
Proof.
  intros Hne.
  assert (∀ messageId,
            (∀ m, m ∈ stored_messages E (table w) chatId →
                  MessageItem.messageId m = messageId →
                  MessageItem.userId m ≠ userId) →
            run (deleteMessage chatId messageId userId) E w
            = (Throw (MessageNotFoundOrDenied messageId), w)) as Hgeneral.
  { intros messageId Hall. rewrite run_deleteMessage by done.
    destruct (find_message _ _) as [m|] eqn:Hfind; [|done].
    apply find_message_Some in Hfind as [Hin%elem_of_message_page Hid].
    by destruct (String.eqb_spec (MessageItem.userId m) userId) as [Hu|_];
      [destruct (Hall m Hin Hid)|]. }
  assert (∀ m, NoDup (MessageItem.messageId <$> stored_messages E (table w) chatId) →
               m ∈ stored_messages E (table w) chatId →
               MessageItem.userId m ≠ userId →
               run (deleteMessage chatId (MessageItem.messageId m) userId) E w
               = (Throw (MessageNotFoundOrDenied (MessageItem.messageId m)), w))
    as Hdistinct.
  { intros m Hnd Hin Hauthor. apply Hgeneral. intros m' Hin' Hid.
    pose proof (find_message_NoDup _ _ Hnd Hin) as Hm.
    pose proof (find_message_NoDup _ _ Hnd Hin') as Hm'.
    rewrite Hid in Hm'. congruence. }
  split; [exact Hgeneral|]. split; [exact Hdistinct|].
  split; [|split; [|done]].
  - intros Hreach Hinj m. apply Hdistinct. by apply message_ids_NoDup.
  - intros messageId Hmissing. apply Hgeneral. intros m Hin Hid.
    by destruct (Hmissing m Hin).
Qed.

(** ** A chat longer than one page *)

Ltac by_compute := apply (bool_decide_unpack _); vm_compute; exact I.

Lemma p5_reachable : reachable E3 p5.
Proof. do 5 apply reachable_step. apply reachable_empty. Qed.

(** C10 where the code misses it.  Alice creates a chat and four messages in
    a store whose pages hold three items.  The fourth message is stored in
    the partition of her chat under the identifier "id-4", but the query of
    [updateMessage] returns the first page only: the call throws "Message
    with ID id-4 not found" and leaves the store as it was. *)
Theorem C10_updateMessage_misses_the_second_page :
  reachable E3 p5 ∧
  (∃ c, stored_chat E3 (table p5) "id-0" = Some c ∧
        ChatItem.userId c = Some "alice") ∧
  MessageItem.messageId <$> stored_messages E3 (table p5) "id-0"
  = ["id-1"; "id-2"; "id-3"; "id-4"] ∧
  fourth_in_p5 ∈ stored_messages E3 (table p5) "id-0" ∧
  MessageItem.messageId fourth_in_p5 = "id-4" ∧
  MessageItem.messageId <$> message_page E3 (table p5) "id-0"
  = ["id-1"; "id-2"; "id-3"] ∧
  run (updateMessage "id-0" "id-4" "alice" "edited" None) E3 p5
  = (Throw (MessageNotFound "id-4"), p5) ∧
  error_message (MessageNotFound "id-4") = "Message with ID id-4 not found".
Proof.
  split; [exact p5_reachable|].
  split; [eexists; split; [vm_compute; reflexivity|reflexivity]|].
  split; [vm_compute; reflexivity|].
  split; [by_compute|].
  split; [reflexivity|].
  split; [vm_compute; reflexivity|].
  split; vm_compute; reflexivity.
Qed.

(** Within the first page the owner edits any message, whoever wrote it.
    In a well-keyed table, for a chat the caller owns and a message the query
    returns, with no other message of the page carrying its identifier,
    [updateMessage] returns the message with the new content (and the new
    reasoning content when one is given) and stores it under the same key;
    the author, the role and [createdAt] are as they were. *)
Lemma updateMessage_owner_edits_on_page (E : Env) (w : World)
    (chatId userId content : string) (reasoningContent : option string)
    (c : ChatItem.t) (m : MessageItem.t) :
  userId ≠ EmptyString →
  wf_table E (table w) →
  stored_chat E (table w) chatId = Some c →
  ChatItem.userId c = Some userId →
  m ∈ message_page E (table w) chatId →
  NoDup (MessageItem.messageId <$> message_page E (table w) chatId) →
  ∃ m' w',
    run (updateMessage chatId (MessageItem.messageId m) userId content
           reasoningContent) E w = (Ok m', w') ∧
    MessageItem.content m' = content ∧
    MessageItem.reasoningContent m'
    = stamped reasoningContent (MessageItem.reasoningContent m) ∧
    MessageItem.messageId m' = MessageItem.messageId m ∧
    MessageItem.createdAt m' = MessageItem.createdAt m ∧
    MessageItem.userId m' = MessageItem.userId m ∧
    MessageItem.role m' = MessageItem.role m ∧
    table w' !! (message_pk E chatId,
                 message_sk E (MessageItem.createdAt m) (MessageItem.messageId m))
    = Some (MessageRow m').
Proof.
  intros Hne Hwf Hchat Howner Hin Hnd.
  rewrite run_updateMessage by done.
  replace (owned_by userId (stored_chat E (table w) chatId)) with (Some c)
    by (symmetry; by apply owned_by_Some).
  pose proof (find_message_NoDup _ _ Hnd Hin) as Hfind. rewrite Hfind.
  destruct (found_message_row E _ _ _ _ Hwf Hfind) as (_ & _ & Hrow).
  cbn zeta. rewrite Hrow.
  eexists _, _. split; [reflexivity|].
  cbn [message_set MessageItem.content MessageItem.reasoningContent
       MessageItem.messageId MessageItem.createdAt MessageItem.userId
       MessageItem.role table set_table].
  repeat (split; [done|]).
  rewrite lookup_insert_ne; [apply lookup_insert_eq|].
  intros Hk. pose proof (f_equal snd Hk) as Hs. cbn [snd] in Hs.
  by destruct (chat_sk_message_sk E (MessageItem.createdAt m)
                 (MessageItem.messageId m)).
Qed.

(** * The statements on concrete runs *)

Lemma nth_in_app (l : list string) (d : string) (j : nat) : nth j l d ∈ l ++ [d].
Proof.
  destruct (decide (j < length l)) as [Hlt|Hge].
  - apply elem_of_app. left. by apply list_elem_of_In, nth_In.
  - rewrite nth_overflow by lia. apply elem_of_app. right. by left.
Qed.

(** Reading a sorted list of stamps position by position is a monotone clock. *)
Lemma nth_sorted_monotone (l : list string) (d : string) :
  StronglySorted str_le (l ++ [d]) →
  ∀ i j, i ≤ j → str_le (nth i l d) (nth j l d).
Proof.
  induction l as [|x l IH]; intros Hs i j Hij.
  - destruct i, j; apply str_le_refl.
  - cbn [app] in Hs. apply StronglySorted_inv in Hs as [Hs Hall].
    destruct i as [|i], j as [|j]; cbn [nth].
    + apply str_le_refl.
    + rewrite Forall_forall in Hall. apply Hall, nth_in_app.
    + lia.
    + apply IH; [done|lia].
Qed.

Lemma E1_monotone : clock_monotone E1.
Proof.
  intros i j Hij. apply (nth_sorted_monotone readings last_reading); [|done].
  by_compute.
Qed.

Lemma E0_monotone : clock_monotone E0.
Proof. exact E1_monotone. Qed.

Lemma w3_reachable : reachable E1 w3.
Proof. do 3 apply reachable_step. apply reachable_empty. Qed.

Lemma u3_reachable : reachable E0 u3.
Proof. do 3 apply reachable_step. apply reachable_empty. Qed.

Lemma u3_contents :
  stored_chat E0 (table u3) chat_id = Some chat_in_u3 ∧
  stored_messages E0 (table u3) chat_id = [second_message; first_message].
Proof. split; vm_compute; reflexivity. Qed.

Lemma w3_contents :
  stored_chat E1 (table w3) chat_id = Some chat_in_w3 ∧
  stored_messages E1 (table w3) chat_id = [second_message; first_message].
Proof. split; vm_compute; reflexivity. Qed.

(** Where a page holds whatever the query matches, everything fits. *)
Lemma E0_fits (t : Table) (chatId : string) : fits_page E0 t chatId.
Proof. unfold fits_page. cbn [page E0 E1]. by rewrite length_fmap. Qed.

Lemma E1_fits (t : Table) (chatId : string) : fits_page E1 t chatId.
Proof. unfold fits_page. cbn [page E1]. by rewrite length_fmap. Qed.

Lemma chat_exists_ids (t : Table) (chatId : string) :
  chat_exists t chatId ↔ chatId ∈ chat_ids t.
Proof.
  unfold chat_exists, chat_ids. rewrite list_elem_of_omap. split.
  - intros (k & c & Hrow & Hid). exists (ChatRow c). split; [|by rewrite Hid].
    apply list_elem_of_fmap. exists (k, ChatRow c).
    split; [done|by apply elem_of_map_to_list].
  - intros (it & Hin & Hit). apply list_elem_of_fmap in Hin as ([k it'] & -> & Hin).
    apply elem_of_map_to_list in Hin. cbn [snd] in Hit.
    destruct it' as [c|m]; [|done]. injection Hit as Hid. by exists k, c.
Qed.

(** No chat of the run carries the identifier written in upper case. *)
Lemma u3_no_upper_case_chat : ¬ chat_exists (table u3) "C-1F0E".
Proof. rewrite chat_exists_ids. by_compute. Qed.

(** The layout of Alice's partition after the two messages: the second
    message shares the first one's timestamp and sorts before it by
    identifier. *)
Lemma C1_witness :
  partition_rows (table u3) "chat#c-1f0e"
  = [ ("metadata", ChatRow chat_in_u3);
      ("msg#2024-05-01t12:00:00.002z#m-27d1", MessageRow second_message);
      ("msg#2024-05-01t12:00:00.002z#m-9a3c", MessageRow first_message) ] ∧
  StronglySorted chronological [second_message; first_message].
Proof.
  destruct (C1_partition_layout E0 (table u3) chat_id chat_in_u3)
    as (_ & _ & _ & _ & Hrows & Hsorted).
  - by_compute.
  - vm_compute. reflexivity.
  - rewrite (proj2 u3_contents). by repeat constructor.
  - rewrite (proj2 u3_contents) in Hrows, Hsorted. split; [exact Hrows|exact Hsorted].
Defined.

(** The keys of the claim, written as the templates are, hold nothing: the
    rows of Alice's chat sit under the keys in lower case. *)
Lemma C1_counterexample :
  stored_chat E0 (table u3) chat_id = Some chat_in_u3 ∧
  stored_messages E0 (table u3) chat_id = [second_message; first_message] ∧
  table u3 !! ("CHAT#" +:+ chat_id, "METADATA") = None ∧
  partition_rows (table u3) ("CHAT#" +:+ chat_id) = [] ∧
  table u3 !! ("chat#c-1f0e", "metadata") = Some (ChatRow chat_in_u3) ∧
  table u3 !! ("chat#c-1f0e", "msg#2024-05-01t12:00:00.002z#m-9a3c")
  = Some (MessageRow first_message) ∧
  table u3 !! ("CHAT#" +:+ chat_id,
               "MSG#" +:+ MessageItem.createdAt first_message +:+ "#" +:+ first_id)
  = None.
Proof. repeat split; vm_compute; reflexivity. Qed.

(** Alice's first message: where the setter does not run on the touch the
    chat keeps its stamp, and where it runs the stamp moves from .001 to
    .002. *)
Lemma C2_witness :
  (∃ c' u', stored_chat E0 (table u2) chat_id = Some c' ∧
            ChatItem.updatedAt c' = Some u' ∧
            u' = "2024-05-01T12:00:00.001Z" ∧
            str_le "2024-05-01T12:00:00.001Z" u') ∧
  (∃ c' u', stored_chat E1 (table w2) chat_id = Some c' ∧
            ChatItem.updatedAt c' = Some u' ∧
            u' = "2024-05-01T12:00:00.002Z" ∧
            str_le "2024-05-01T12:00:00.001Z" u').
Proof.
  split.
  - exact (C2_createMessage_touches_chat E0 u1 u2 chat_id "alice" "hello" user None
             chat_in_u3 "2024-05-01T12:00:00.001Z" first_message
             E0_monotone
             ltac:(vm_compute; reflexivity) ltac:(reflexivity)
             ltac:(vm_compute; reflexivity) ltac:(vm_compute; reflexivity)).
  - exact (C2_createMessage_touches_chat E1 w1 w2 chat_id "alice" "hello" user None
             chat_in_w1 "2024-05-01T12:00:00.001Z" first_message
             E1_monotone
             ltac:(vm_compute; reflexivity) ltac:(reflexivity)
             ltac:(vm_compute; reflexivity) ltac:(vm_compute; reflexivity)).
Defined.

Lemma u3_next_id_fresh : next_id_fresh E0 u3.
Proof.
  intros i Hi. change (draws u3) with 3 in *.
  destruct i as [|[|[|i]]]; [by vm_compute..|lia].
Qed.

(** Bob creates a chat after Alice's chat and her two messages. *)
Lemma C3_witness :
  ∃ c w', run (createChat "bob" "bobs-chat") E0 u3 = (Ok c, w') ∧
          ChatItem.name c = Some "bobs-chat" ∧
          ChatItem.userId c = Some "bob" ∧
          ChatItem.chatId c = third_id ∧
          ¬ chat_exists (table u3) (ChatItem.chatId c) ∧
          stored_chat E0 (table w') (ChatItem.chatId c) = Some c.
Proof.
  destruct (C3_createChat_fresh_chat E0 u3 "bob" "bobs-chat")
    as (c & w' & Hrun & Hname & Howner & Hid & _ & Hfresh & Hstored & _).
  - exact u3_reachable.
  - exact u3_next_id_fresh.
  - done.
  - apply validate_name_spec. reflexivity.
  - exists c, w'. repeat split; done.
Defined.

(** The clock moves between the reading stored as [createdAt] and the one
    stored as [updatedAt]: the created chat carries two different stamps. *)
Lemma C3_counterexample :
  ∃ c w', "alice" ≠ EmptyString ∧ 1 ≤ utf16_length "test-chat" ≤ 100 ∧
          run (createChat "alice" "test-chat") E0 empty_world = (Ok c, w') ∧
          ChatItem.createdAt c = Some "2024-05-01T12:00:00.000Z" ∧
          ChatItem.updatedAt c = Some "2024-05-01T12:00:00.001Z" ∧
          ChatItem.createdAt c ≠ ChatItem.updatedAt c.
Proof.
  exists chat_in_u3, u1. split; [done|]. split; [apply validate_name_spec; reflexivity|].
  split; [vm_compute; reflexivity|]. done.
Qed.

(** Bob reads Alice's chat, and Alice reads a chat that is not there. *)
Lemma C4_witness :
  (run (getChatForUser chat_id "bob") E0 u3 = (Ok None, u3) ∧
   run (getMessagesForChat chat_id "bob") E0 u3 = (Ok [], u3)) ∧
  (run (getChatForUser "c-0000" "alice") E0 u3 = (Ok None, u3) ∧
   run (getMessagesForChat "c-0000" "alice") E0 u3 = (Ok [], u3)).
Proof.
  split.
  - apply (C4_reads_on_hidden_chat E0 u3 chat_id "bob"); [done|].
    right. exists chat_in_u3. split; [vm_compute; reflexivity|done].
  - apply (C4_reads_on_hidden_chat E0 u3 "c-0000" "alice"); [done|].
    left. vm_compute. reflexivity.
Defined.

(** Alice asks for her chat with its identifier in upper case.  No stored
    chat carries that [chatId], and the reads return her chat and its
    messages. *)
Lemma C4_counterexample :
  "alice" ≠ EmptyString ∧
  ¬ chat_exists (table u3) "C-1F0E" ∧
  run (getChatForUser "C-1F0E" "alice") E0 u3 = (Ok (Some chat_in_u3), u3) ∧
  ChatItem.chatId chat_in_u3 = "c-1f0e" ∧
  run (getMessagesForChat "C-1F0E" "alice") E0 u3
  = (Ok [second_message; first_message], u3).
Proof.
  split; [done|]. split; [exact u3_no_upper_case_chat|].
  repeat split; vm_compute; reflexivity.
Qed.

(** Alice writes to a chat that does not exist, and Bob to Alice's chat. *)
Lemma C5_witness :
  (run (createMessage "c-0000" "alice" "hello" user None) E0 u3
   = (Throw (ChatNotFound "c-0000"), u3) ∧
   run (updateChatName "c-0000" "alice" "renamed") E0 u3
   = (Throw (ChatNotFound "c-0000"), u3) ∧
   run (updateMessage "c-0000" first_id "alice" "edited" None) E0 u3
   = (Throw (ChatNotFound "c-0000"), u3)) ∧
  run (createMessage chat_id "bob" "hello" assistant (Some "why")) E0 u3
  = (Throw (ChatNotFound chat_id), u3).
Proof.
  split.
  - destruct (C5_writes_on_hidden_chat E0 u3 "c-0000" "alice")
      as (_ & Hcreate & Hrename & Hedit).
    + done.
    + left. vm_compute. reflexivity.
    + split; [apply Hcreate|]. split; [apply Hrename|apply Hedit].
  - destruct (C5_writes_on_hidden_chat E0 u3 chat_id "bob")
      as (_ & Hcreate & _).
    + done.
    + right. exists chat_in_u3. split; [vm_compute; reflexivity|done].
    + apply Hcreate.
Defined.

(** Alice writes to her chat with its identifier in upper case.  No stored
    chat carries that [chatId]; the message is stored among those of her
    chat, the renaming returns her chat, and the edit her message. *)
Lemma C5_counterexample :
  "alice" ≠ EmptyString ∧
  ¬ chat_exists (table u3) "C-1F0E" ∧
  (run (createMessage "C-1F0E" "alice" "again" user None) E0 u3).1
  = Ok (MessageItem.mk "C-1F0E" third_id "alice" "2024-05-01T12:00:00.003Z"
          "2024-05-01T12:00:00.005Z" "again" None user) ∧
  MessageItem.content <$>
    stored_messages E0
      (table (run (createMessage "C-1F0E" "alice" "again" user None) E0 u3).2)
      chat_id
  = ["hi there"; "hello"; "again"] ∧
  (run (updateChatName "C-1F0E" "alice" "renamed") E0 u3).1
  = Ok (ChatItem.mk "C-1F0E" (Some "alice") (Some "renamed")
          (Some "2024-05-01T12:00:00.000Z") (Some "2024-05-01T12:00:00.001Z")) ∧
  ChatItem.name <$>
    stored_chat E0
      (table (run (updateChatName "C-1F0E" "alice" "renamed") E0 u3).2) chat_id
  = Some (Some "renamed") ∧
  (run (updateMessage "C-1F0E" first_id "alice" "edited" None) E0 u3).1
  = Ok (MessageItem.mk "C-1F0E" first_id "alice" "2024-05-01T12:00:00.002Z"
          "2024-05-01T12:00:00.002Z" "edited" None user) ∧
  MessageItem.content <$>
    stored_messages E0
      (table (run (updateMessage "C-1F0E" first_id "alice" "edited" None) E0 u3).2)
      chat_id
  = ["hi there"; "edited"].
Proof.
  split; [done|]. split; [exact u3_no_upper_case_chat|].
  repeat split; vm_compute; reflexivity.
Qed.

(** Bob cannot delete Alice's chat; Alice can, and nothing of it remains. *)
Lemma C6_witness :
  run (deleteChat chat_id "bob") E0 u3 = (Ok false, u3) ∧
  ∃ w', run (deleteChat chat_id "alice") E0 u3 = (Ok true, w') ∧
        stored_chat E0 (table w') chat_id = None ∧
        stored_messages E0 (table w') chat_id = [] ∧
        run (getMessagesForChat chat_id "alice") E0 w' = (Ok [], w') ∧
        run (getChatForUser chat_id "alice") E0 w' = (Ok None, w').
Proof.
  split.
  - apply (C6_deleteChat_cascades E0 u3 chat_id "bob"); [done|].
    right. exists chat_in_u3. split; [vm_compute; reflexivity|done].
  - destruct (C6_deleteChat_cascades E0 u3 chat_id "alice") as [_ Howned]; [done|].
    destruct (Howned chat_in_u3) as (w' & Hrun & Hchat & _ & Hall & Hmsgs & Hget).
    + by_compute.
    + vm_compute. reflexivity.
    + reflexivity.
    + destruct (Hall (E0_fits _ _)) as [_ Hnone].
      exists w'. by repeat split.
Defined.

(** Alice deletes a chat named with her chat's identifier in upper case.
    No stored chat carries that [chatId]; the call returns true, and her
    chat and its messages are gone. *)
Lemma C6_counterexample :
  "alice" ≠ EmptyString ∧
  ¬ chat_exists (table u3) "C-1F0E" ∧
  stored_chat E0 (table u3) chat_id = Some chat_in_u3 ∧
  (run (deleteChat "C-1F0E" "alice") E0 u3).1 = Ok true ∧
  stored_chat E0 (table (run (deleteChat "C-1F0E" "alice") E0 u3).2) chat_id
  = None ∧
  table (run (deleteChat "C-1F0E" "alice") E0 u3).2 = ∅.
Proof.
  split; [done|]. split; [exact u3_no_upper_case_chat|].
  repeat split; vm_compute; reflexivity.
Qed.

Lemma E3_inj : Inj (=) (=) (randomUUID E3).
Proof. intros i j Hij. cbn in Hij. by apply String.app_inj, pretty_nat_inj in Hij. Qed.

(** Bob deletes Alice's message, then a message that does not exist; and in
    the long chat he is refused the same way. *)
Lemma C7_witness :
  run (deleteMessage chat_id first_id "bob") E0 u3
  = (Throw (MessageNotFoundOrDenied first_id), u3) ∧
  run (deleteMessage chat_id "m-0000" "bob") E0 u3
  = (Throw (MessageNotFoundOrDenied "m-0000"), u3) ∧
  run (deleteMessage "id-0" "id-1" "bob") E3 p5
  = (Throw (MessageNotFoundOrDenied "id-1"), p5) ∧
  run (deleteMessage "id-0" "id-4" "bob") E3 p5
  = (Throw (MessageNotFoundOrDenied "id-4"), p5).
Proof.
  destruct (C7_deleteMessage_non_author_or_missing E0 u3 chat_id "bob")
    as (_ & Hother & _ & Hmissing & _); [done|].
  destruct (C7_deleteMessage_non_author_or_missing E3 p5 "id-0" "bob")
    as (_ & _ & Hreach & _); [done|].
  split; [|split; [|split]].
  - apply (Hother first_message).
    + by_compute.
    + rewrite (proj2 u3_contents). by_compute.
    + done.
  - apply Hmissing. rewrite (proj2 u3_contents).
    intros m [->|[->|[]%elem_of_nil]%elem_of_cons]%elem_of_cons; done.
  - apply (Hreach p5_reachable E3_inj first_in_p5); [by_compute|done].
  - apply (Hreach p5_reachable E3_inj fourth_in_p5); [by_compute|done].
Defined.

(** Alice renames her chat to X and reads it back. *)
Lemma C8_witness :
  ∃ c' w', run (updateChatName chat_id "alice" "X") E0 u3 = (Ok c', w') ∧
           run (getChatForUser chat_id "alice") E0 w' = (Ok (Some c'), w') ∧
           ChatItem.name c' = Some "X" ∧
           ChatItem.chatId c' = chat_id ∧
           ChatItem.userId c' = Some "alice" ∧
           ChatItem.createdAt c' = Some "2024-05-01T12:00:00.000Z".
Proof.
  destruct (C8_updateChatName_then_get E0 u3 chat_id "alice" "X" chat_in_u3)
    as (c' & w' & Hrun & Hget & Hname & Hid & Huser & Hcreated & _).
  - done.
  - apply validate_name_spec. reflexivity.
  - vm_compute. reflexivity.
  - reflexivity.
  - reflexivity.
  - exists c', w'. by repeat split.
Defined.

(** In Alice's chat, the sender "assistant" deletes its own reply; Alice,
    who owns the chat, is refused. *)
Lemma C9_witness :
  (run (deleteMessage chat_id third_id "assistant") E0 u4).1 = Ok true ∧
  table (run (deleteMessage chat_id third_id "assistant") E0 u4).2
    !! item_key E0 (MessageRow reply_in_u4) = None ∧
  run (deleteMessage chat_id third_id "alice") E0 u4
  = (Throw (MessageNotFoundOrDenied third_id), u4).
Proof.
  assert (find_message third_id (stored_messages E0 (table u4) chat_id)
          = Some reply_in_u4) as Hfound by (vm_compute; reflexivity).
  split; [|split].
  - destruct (C9_deleteMessage_checks_author_only E0 u4 chat_id third_id "assistant")
      as (_ & Hauthor & _); [done|by_compute|apply E0_fits|].
    apply (Hauthor reply_in_u4 chat_in_u3);
      [exact Hfound|reflexivity|vm_compute; reflexivity].
  - destruct (C9_deleteMessage_checks_author_only E0 u4 chat_id third_id "assistant")
      as (_ & Hauthor & _); [done|by_compute|apply E0_fits|].
    apply (Hauthor reply_in_u4 chat_in_u3);
      [exact Hfound|reflexivity|vm_compute; reflexivity].
  - destruct (C9_deleteMessage_checks_author_only E0 u4 chat_id third_id "alice")
      as (_ & _ & Hbot); [done|by_compute|apply E0_fits|].
    apply (Hbot reply_in_u4); [exact Hfound|reflexivity|done].
Defined.

(** Two runs the original reading of C9 excludes. *)
Lemma C9_counterexample :
  (* the caller called "assistant" deletes a message stored as "assistant" *)
  ub2 = step E0 (CreateMessage chat_id "assistant" "hello" assistant None)
          (step E0 (CreateChat "assistant" "notes") empty_world) ∧
  MessageItem.userId <$> stored_messages E0 (table ub2) chat_id = ["assistant"] ∧
  (run (deleteMessage chat_id first_id "assistant") E0 ub2).1 = Ok true ∧
  stored_messages E0 (table (run (deleteMessage chat_id first_id "assistant") E0 ub2).2)
    chat_id = [] ∧
  (* the author of a message whose chat row is missing is not answered true *)
  find_message first_id (stored_messages E0 (table u_orphans) chat_id)
  = Some first_message ∧
  MessageItem.userId first_message = "alice" ∧
  (run (deleteMessage chat_id first_id "alice") E0 u_orphans).1
  = Throw (Store ConditionalCheckFailed).
Proof.
  split; [reflexivity|]. repeat split; vm_compute; reflexivity.
Qed.
